(** * Event cache and bot loop of the EMP liquidator / disputer bots

    A shallow embedding of
    - [financial-templates-lib/clients/ExpiringMultiPartyEventClient.js]
      (module [EventClient]): the twelve cached event arrays, [update],
      [clearState] and the accessors;
    - [disputer/index.js] and [liquidator/index.js] (module [Bot]): the two
      [run] functions with their allowance top-up and polling loop.

    JavaScript arrays are mutable objects that the accessors hand out by
    reference, so the arrays live in a heap and the client stores references.
    Awaited calls either complete normally or throw; [update] mutates the
    client as it goes, so a throw leaves the mutations made so far in place.
    Block numbers are JavaScript numbers holding non-negative integers far
    below 2^53; they are modelled as [Z]. *)

From Stdlib Require Import ZArith String List Lia Sorting.Sorted.
From stdpp Require Import base option list list_numbers strings gmap sorting.

(** ** JavaScript values and completions *)

Inductive value : Type :=
| undefined
| num (z : Z)
| str (s : string)
| boolean (b : bool).

Inductive Error : Type :=
| RpcError (message : string)     (* a rejected promise of the chain transport *)
| TypeError (message : string)    (* a property read on [undefined] *)
| JsError (message : string)      (* [new Error(message)] *)
| ThrownString (s : string).      (* [throw "..."], a string that is not an Error *)

Inductive Completion (A : Type) : Type :=
| Normal (a : A)
| Throw (e : Error).
Arguments Normal {A} a.
Arguments Throw {A} e.

Definition isOk {A} (c : Completion A) : bool :=
  match c with Normal _ => true | Throw _ => false end.

(** [o.k] on an object: [undefined] when the key is absent. *)
Definition prop (o : gmap string value) (k : string) : value :=
  default undefined (o !! k).

(** The event objects web3's [getPastEvents] resolves to. *)
Module Web3Event.
Record t : Type := mk {
  transactionHash : string;
  blockNumber : Z;
  returnValues : gmap string value
}.
End Web3Event.

Module EventClient.

(** ** Data *)

(** The object literal pushed on a cache array: the two fields every kind
    has, and the kind's own keys. *)
Record EventRecord : Type := {
  transactionHash : string;
  blockNumber : Z;
  payload : gmap string value
}.

(** Array references and the heap of arrays (abbreviations, so that the list
    lemmas apply to them as they are). *)
Abbreviation ref := nat (only parsing).
Abbreviation Heap := (list (list EventRecord)) (only parsing).

Record Client : Type := {
  liquidationEvents : ref;
  disputeEvents : ref;
  disputeSettlementEvents : ref;
  newSponsorEvents : ref;
  depositEvents : ref;
  createEvents : ref;
  withdrawEvents : ref;
  redeemEvents : ref;
  regularFeeEvents : ref;
  finalFeeEvents : ref;
  liquidationWithdrawnEvents : ref;
  settleExpiredPositionEvents : ref;
  firstBlockToSearch : Z;
  lastUpdateTimestamp : value
}.

(** What [update] asks of its collaborators, in call order. *)
Inductive Call : Type :=
| GetBlockNumber
| GetPastEvents (name : string) (fromBlock toBlock : Z)
| GetCurrentTime
| LoggerDebug (lastUpdate : value).

(** The chain as one [update] call sees it. Each event name is asked for once
    per call, so a function of the request covers every mock. *)
Record Transport : Type := {
  getBlockNumber : Completion Z;
  getPastEvents : string → Z → Z → Completion (list Web3Event.t);
  getCurrentTime : Completion value
}.

Record World : Type := {
  heap : Heap;
  this : Client;
  calls : list Call
}.

(** ** State and exception monad *)

Definition M (A : Type) : Type := World → World * Completion A.

#[global] Instance M_ret : MRet M := λ A a w, (w, Normal a).
#[global] Instance M_bind : MBind M := λ A B f m w,
  match m w with
  | (w', Normal a) => f a w'
  | (w', Throw e) => (w', Throw e)
  end.

Definition throw {A} (e : Error) : M A := λ w, (w, Throw e).
Definition getThis : M Client := λ w, (w, Normal (this w)).
Definition setThis (c : Client) : M unit :=
  λ w, ({| heap := heap w; this := c; calls := calls w |}, Normal tt).
Definition call {A} (c : Call) (r : Completion A) : M A :=
  λ w, ({| heap := heap w; this := this w; calls := calls w ++ [c] |}, r).

(** [for (let x of xs) body] *)
Fixpoint forOf {A} (xs : list A) (body : A → M unit) : M unit :=
  match xs with
  | [] => mret tt
  | x :: xs' => body x ;; forOf xs' body
  end.

Definition deref (h : Heap) (r : ref) : list EventRecord := default [] (h !! r).

(** [this.fld.push(x)] *)
Definition push (fld : Client → ref) (x : EventRecord) : M unit :=
  λ w, ({| heap := alter (λ a, a ++ [x]) (fld (this w)) (heap w);
           this := this w; calls := calls w |}, Normal tt).

(** Reading the array behind a reference. *)
Definition read (r : ref) : M (list EventRecord) :=
  λ w, (w, Normal (deref (heap w) r)).

(** ** The client *)

Definition web3_eth_getBlockNumber (t : Transport) : M Z :=
  call GetBlockNumber (getBlockNumber t).

(** [this.emp.getPastEvents(name, { fromBlock: this.firstBlockToSearch, toBlock })] *)
Definition emp_getPastEvents (t : Transport) (name : string) (toBlock : Z)
  : M (list Web3Event.t) :=
  c ← getThis;
  call (GetPastEvents name (firstBlockToSearch c) toBlock)
       (getPastEvents t name (firstBlockToSearch c) toBlock).

(** One "fetch, then push each" block of [update]. *)
Definition ingest (t : Transport) (name : string) (fld : Client → ref)
    (mk : Web3Event.t → EventRecord) (currentBlockNumber : Z) : M unit :=
  eventsObj ← emp_getPastEvents t name currentBlockNumber;
  forOf eventsObj (λ event, push fld (mk event)).

(** The literal [{ transactionHash, blockNumber, k1: event.returnValues.k1, ... }]. *)
Definition literal (keys : list string) (event : Web3Event.t) : EventRecord :=
  {| transactionHash := Web3Event.transactionHash event;
     blockNumber := Web3Event.blockNumber event;
     payload := list_to_map
       ((λ k, (k, prop (Web3Event.returnValues event) k)) <$> keys) |}.

(** What reading [createEvent[0].collateralAmount] throws when the filter
    found nothing (the spec's ConsistencyError). *)
Definition undefined_read : Error :=
  TypeError "Cannot read property 'collateralAmount' of undefined".

(** The literal pushed for a NewSponsor event, [c] being [createEvent[0]]. *)
Definition newSponsorLiteral (event : Web3Event.t) (c : EventRecord) : EventRecord :=
  {| transactionHash := Web3Event.transactionHash event;
     blockNumber := Web3Event.blockNumber event;
     payload := {[ "sponsor" := prop (Web3Event.returnValues event) "sponsor";
                   "collateralAmount" := prop (payload c) "collateralAmount";
                   "tokenAmount" := prop (payload c) "tokenAmount" ]} |}.

(** [created.filter(e => e.blockNumber === event.blockNumber)] *)
Definition matching (created : list EventRecord) (event : Web3Event.t)
  : list EventRecord :=
  List.filter (λ e, blockNumber e =? Web3Event.blockNumber event)%Z created.

(** The body of the NewSponsor loop. The literal is evaluated before the
    push, so the read of [createEvent[0].collateralAmount] throws before
    anything is appended. *)
Definition newSponsorBody (event : Web3Event.t) : M unit :=
  c ← getThis;
  created ← read (createEvents c);
  let createEvent := matching created event in
  match createEvent !! 0%nat with
  | None => throw undefined_read
  | Some c0 => push newSponsorEvents (newSponsorLiteral event c0)
  end.

Definition ingestNewSponsor (t : Transport) (currentBlockNumber : Z) : M unit :=
  newSponsorEventsObj ← emp_getPastEvents t "NewSponsor" currentBlockNumber;
  forOf newSponsorEventsObj newSponsorBody.

Definition set_firstBlockToSearch (b : Z) (c : Client) : Client :=
  {| liquidationEvents := liquidationEvents c; disputeEvents := disputeEvents c;
     disputeSettlementEvents := disputeSettlementEvents c;
     newSponsorEvents := newSponsorEvents c; depositEvents := depositEvents c;
     createEvents := createEvents c; withdrawEvents := withdrawEvents c;
     redeemEvents := redeemEvents c; regularFeeEvents := regularFeeEvents c;
     finalFeeEvents := finalFeeEvents c;
     liquidationWithdrawnEvents := liquidationWithdrawnEvents c;
     settleExpiredPositionEvents := settleExpiredPositionEvents c;
     firstBlockToSearch := b; lastUpdateTimestamp := lastUpdateTimestamp c |}.

Definition set_lastUpdateTimestamp (v : value) (c : Client) : Client :=
  {| liquidationEvents := liquidationEvents c; disputeEvents := disputeEvents c;
     disputeSettlementEvents := disputeSettlementEvents c;
     newSponsorEvents := newSponsorEvents c; depositEvents := depositEvents c;
     createEvents := createEvents c; withdrawEvents := withdrawEvents c;
     redeemEvents := redeemEvents c; regularFeeEvents := regularFeeEvents c;
     finalFeeEvents := finalFeeEvents c;
     liquidationWithdrawnEvents := liquidationWithdrawnEvents c;
     settleExpiredPositionEvents := settleExpiredPositionEvents c;
     firstBlockToSearch := firstBlockToSearch c; lastUpdateTimestamp := v |}.

Definition update (t : Transport) : M unit :=
  currentBlockNumber ← web3_eth_getBlockNumber t;
  ingest t "LiquidationCreated" liquidationEvents
    (literal ["sponsor"; "liquidator"; "liquidationId"; "tokensOutstanding";
              "lockedCollateral"; "liquidatedCollateral"]) currentBlockNumber;;
  ingest t "LiquidationDisputed" disputeEvents
    (literal ["sponsor"; "liquidator"; "disputer"; "liquidationId";
              "disputeBondAmount"]) currentBlockNumber;;
  ingest t "DisputeSettled" disputeSettlementEvents
    (literal ["caller"; "sponsor"; "liquidator"; "disputer"; "liquidationId";
              "disputeSucceeded"]) currentBlockNumber;;
  ingest t "PositionCreated" createEvents
    (literal ["sponsor"; "collateralAmount"; "tokenAmount"]) currentBlockNumber;;
  ingestNewSponsor t currentBlockNumber;;
  ingest t "Deposit" depositEvents
    (literal ["sponsor"; "collateralAmount"]) currentBlockNumber;;
  ingest t "Withdrawal" withdrawEvents
    (literal ["sponsor"; "collateralAmount"]) currentBlockNumber;;
  ingest t "Redeem" redeemEvents
    (literal ["sponsor"; "collateralAmount"; "tokenAmount"]) currentBlockNumber;;
  ingest t "RegularFeesPaid" regularFeeEvents
    (literal ["regularFee"; "lateFee"]) currentBlockNumber;;
  ingest t "FinalFeesPaid" finalFeeEvents
    (literal ["amount"]) currentBlockNumber;;
  ingest t "LiquidationWithdrawn" liquidationWithdrawnEvents
    (literal ["caller"; "withdrawalAmount"; "liquidationStatus"]) currentBlockNumber;;
  ingest t "SettleExpiredPosition" settleExpiredPositionEvents
    (literal ["caller"; "collateralReturned"; "tokensBurned"]) currentBlockNumber;;
  c ← getThis;
  setThis (set_firstBlockToSearch (currentBlockNumber + 1) c);;
  now ← call GetCurrentTime (getCurrentTime t);
  c ← getThis;
  setThis (set_lastUpdateTimestamp now c);;
  call (LoggerDebug now) (Normal tt).

(** Twelve fresh empty arrays, allocated in the order the source assigns
    them; [n] is the first free reference. *)
Definition freshArrays (n : ref) (first : Z) (stamp : value) : Client :=
  {| liquidationEvents := n; disputeEvents := n + 1;
     disputeSettlementEvents := n + 2; newSponsorEvents := n + 3;
     depositEvents := n + 4; createEvents := n + 5; withdrawEvents := n + 6;
     redeemEvents := n + 7; regularFeeEvents := n + 8; finalFeeEvents := n + 9;
     liquidationWithdrawnEvents := n + 10;
     settleExpiredPositionEvents := n + 11;
     firstBlockToSearch := first; lastUpdateTimestamp := stamp |}.

(** [new ExpiringMultiPartyEventClient(logger, empAbi, web3, empAddress,
    latestBlockNumber)], in a heap [h] that may already hold other arrays. *)
Definition construct (h : Heap) (latestBlockNumber : Z) : World :=
  {| heap := h ++ replicate 12 [];
     this := freshArrays (length h) latestBlockNumber (num 0);
     calls := [] |}.

(** The constructor's default [latestBlockNumber = 0]. *)
Definition construct_default (h : Heap) : World := construct h 0.

(** [clearState]: every field is assigned a new empty array; the cursor and
    the timestamp are not assigned. *)
Definition clearState : M unit :=
  λ w, ({| heap := heap w ++ replicate 12 [];
           this := freshArrays (length (heap w)) (firstBlockToSearch (this w))
                     (lastUpdateTimestamp (this w));
           calls := calls w |}, Normal tt).

(** The accessors return the field itself: a reference to the live array. *)
Definition getAllNewSponsorEvents (w : World) : ref := newSponsorEvents (this w).
Definition getAllLiquidationEvents (w : World) : ref := liquidationEvents (this w).
Definition getAllDisputeEvents (w : World) : ref := disputeEvents (this w).
Definition getAllDisputeSettlementEvents (w : World) : ref :=
  disputeSettlementEvents (this w).
Definition getAllDepositEvents (w : World) : ref := depositEvents (this w).
Definition getAllCreateEvents (w : World) : ref := createEvents (this w).
Definition getAllWithdrawEvents (w : World) : ref := withdrawEvents (this w).
Definition getAllRedeemEvents (w : World) : ref := redeemEvents (this w).
Definition getAllRegularFeeEvents (w : World) : ref := regularFeeEvents (this w).
Definition getAllFinalFeeEvents (w : World) : ref := finalFeeEvents (this w).
Definition getAllLiquidationWithdrawnEvents (w : World) : ref :=
  liquidationWithdrawnEvents (this w).
Definition getAllSettleExpiredPositionEvents (w : World) : ref :=
  settleExpiredPositionEvents (this w).
Definition getLastUpdateTime (w : World) : value := lastUpdateTimestamp (this w).

(** ** The twelve kinds, uniformly *)

Inductive Kind : Type :=
| LiquidationCreated | LiquidationDisputed | DisputeSettled | PositionCreated
| NewSponsor | Deposit | Withdrawal | Redeem | RegularFeesPaid | FinalFeesPaid
| LiquidationWithdrawn | SettleExpiredPosition.

#[global] Instance Kind_eq_dec : EqDecision Kind.
Proof. solve_decision. Defined.

(** The kinds in the order [update] fetches them. *)
Definition order : list Kind :=
  [LiquidationCreated; LiquidationDisputed; DisputeSettled; PositionCreated;
   NewSponsor; Deposit; Withdrawal; Redeem; RegularFeesPaid; FinalFeesPaid;
   LiquidationWithdrawn; SettleExpiredPosition].

Definition eventName (k : Kind) : string :=
  match k with
  | LiquidationCreated => "LiquidationCreated"
  | LiquidationDisputed => "LiquidationDisputed"
  | DisputeSettled => "DisputeSettled"
  | PositionCreated => "PositionCreated"
  | NewSponsor => "NewSponsor"
  | Deposit => "Deposit"
  | Withdrawal => "Withdrawal"
  | Redeem => "Redeem"
  | RegularFeesPaid => "RegularFeesPaid"
  | FinalFeesPaid => "FinalFeesPaid"
  | LiquidationWithdrawn => "LiquidationWithdrawn"
  | SettleExpiredPosition => "SettleExpiredPosition"
  end.

(** The field of the client that caches a kind. *)
Definition field (k : Kind) : Client → ref :=
  match k with
  | LiquidationCreated => liquidationEvents
  | LiquidationDisputed => disputeEvents
  | DisputeSettled => disputeSettlementEvents
  | PositionCreated => createEvents
  | NewSponsor => newSponsorEvents
  | Deposit => depositEvents
  | Withdrawal => withdrawEvents
  | Redeem => redeemEvents
  | RegularFeesPaid => regularFeeEvents
  | FinalFeesPaid => finalFeeEvents
  | LiquidationWithdrawn => liquidationWithdrawnEvents
  | SettleExpiredPosition => settleExpiredPositionEvents
  end.

(** The [returnValues] keys a kind's literal copies ([NewSponsor] takes its
    two amounts from the correlated PositionCreated record instead). *)
Definition keys (k : Kind) : list string :=
  match k with
  | LiquidationCreated =>
      ["sponsor"; "liquidator"; "liquidationId"; "tokensOutstanding";
       "lockedCollateral"; "liquidatedCollateral"]
  | LiquidationDisputed =>
      ["sponsor"; "liquidator"; "disputer"; "liquidationId"; "disputeBondAmount"]
  | DisputeSettled =>
      ["caller"; "sponsor"; "liquidator"; "disputer"; "liquidationId";
       "disputeSucceeded"]
  | PositionCreated => ["sponsor"; "collateralAmount"; "tokenAmount"]
  | NewSponsor => ["sponsor"]
  | Deposit => ["sponsor"; "collateralAmount"]
  | Withdrawal => ["sponsor"; "collateralAmount"]
  | Redeem => ["sponsor"; "collateralAmount"; "tokenAmount"]
  | RegularFeesPaid => ["regularFee"; "lateFee"]
  | FinalFeesPaid => ["amount"]
  | LiquidationWithdrawn => ["caller"; "withdrawalAmount"; "liquidationStatus"]
  | SettleExpiredPosition => ["caller"; "collateralReturned"; "tokensBurned"]
  end.

(** The accessor of a kind, and the array a caller sees through it. *)
Definition getEvents (k : Kind) (w : World) : ref := field k (this w).
Definition events (k : Kind) (w : World) : list EventRecord :=
  deref (heap w) (getEvents k w).

(** One block of [update], by kind. *)
Definition stage (t : Transport) (currentBlockNumber : Z) (k : Kind) : M unit :=
  match k with
  | NewSponsor => ingestNewSponsor t currentBlockNumber
  | _ => ingest t (eventName k) (field k) (literal (keys k)) currentBlockNumber
  end.

(** The statements of [update] after the twelve blocks. *)
Definition finish (t : Transport) (currentBlockNumber : Z) : M unit :=
  c ← getThis;
  setThis (set_firstBlockToSearch (currentBlockNumber + 1) c);;
  now ← call GetCurrentTime (getCurrentTime t);
  c ← getThis;
  setThis (set_lastUpdateTimestamp now c);;
  call (LoggerDebug now) (Normal tt).

(** [update] as a loop over [order]; [update_staged] below shows it is the
    same function. *)
Definition staged (t : Transport) : M unit :=
  currentBlockNumber ← web3_eth_getBlockNumber t;
  forOf order (stage t currentBlockNumber);;
  finish t currentBlockNumber.

(** ** Histories of calls on one client *)

Inductive Op : Type :=
| Update (t : Transport)     (* [await client.update()], a throw is caught by the caller *)
| ClearState                 (* [await client.clearState()] *)
| Get (k : Kind).            (* one of the accessors *)

Definition step (w : World) (o : Op) : World :=
  match o with
  | Update t => fst (update t w)
  | ClearState => fst (clearState w)
  | Get _ => w
  end.

Definition exec (ops : list Op) (w : World) : World := fold_left step ops w.

(** Every array the client holds is allocated, and no two fields share one. *)
Definition wf (w : World) : Prop :=
  (∀ k, (field k (this w) < length (heap w))%nat) ∧
  (∀ k k', field k (this w) = field k' (this w) → k = k').

(** ** A heap-free reading of [update]

    What one [update] call does to the twelve sequences a caller sees, to
    the cursor and to the timestamp, as a function of the transport's
    answers. [update_run] proves that [update] on the heap agrees with it on
    every well-formed world. *)

Definition appendTo (r : ref) (recs : list EventRecord) (w : World) : World :=
  {| heap := alter (λ a, a ++ recs) r (heap w); this := this w; calls := calls w |}.

Definition logged (c : Call) (w : World) : World :=
  {| heap := heap w; this := this w; calls := calls w ++ [c] |}.

(** Every array only gets longer, and none is freed. *)
Definition grows (h h' : Heap) : Prop :=
  (length h ≤ length h')%nat ∧ ∀ r, deref h r `prefix_of` deref h' r.

Definition View : Type := Kind → list EventRecord.

Definition view (w : World) : View := λ k, events k w.

Definition add (k : Kind) (recs : list EventRecord) (v : View) : View :=
  λ k', if decide (k' = k) then v k' ++ recs else v k'.

(** The NewSponsor loop over the array [created] that [this.createEvents]
    holds while the loop runs: the records pushed, and how the loop ends. *)
Fixpoint correlate (created : list EventRecord) (evs : list Web3Event.t)
  : list EventRecord * Completion unit :=
  match evs with
  | [] => ([], Normal tt)
  | event :: rest =>
      match matching created event with
      | [] => ([], Throw undefined_read)
      | c :: _ =>
          let '(recs, r) := correlate created rest in
          (newSponsorLiteral event c :: recs, r)
      end
  end.

Definition request (from cur : Z) (k : Kind) : Call :=
  GetPastEvents (eventName k) from cur.

Definition stageV (t : Transport) (from cur : Z) (k : Kind) (v : View)
  : View * Completion unit :=
  match getPastEvents t (eventName k) from cur with
  | Throw e => (v, Throw e)
  | Normal evs =>
      match k with
      | NewSponsor =>
          let '(recs, r) := correlate (v PositionCreated) evs in
          (add NewSponsor recs v, r)
      | _ => (add k (literal (keys k) <$> evs) v, Normal tt)
      end
  end.

Fixpoint stagesV (t : Transport) (from cur : Z) (ks : list Kind) (v : View)
  : View * list Call * Completion unit :=
  match ks with
  | [] => (v, [], Normal tt)
  | k :: ks' =>
      match stageV t from cur k v with
      | (v', Normal _) =>
          let '(v'', cs, r) := stagesV t from cur ks' v' in
          (v'', request from cur k :: cs, r)
      | (v', Throw e) => (v', [request from cur k], Throw e)
      end
  end.

Record Summary : Type := {
  s_view : View;
  s_cursor : Z;
  s_stamp : value;
  s_calls : list Call;
  s_result : Completion unit
}.

Definition updateV (t : Transport) (from : Z) (stamp : value) (v : View) : Summary :=
  match getBlockNumber t with
  | Throw e =>
      {| s_view := v; s_cursor := from; s_stamp := stamp;
         s_calls := [GetBlockNumber]; s_result := Throw e |}
  | Normal cur =>
      let '(v', cs, r) := stagesV t from cur order v in
      match r with
      | Throw e =>
          {| s_view := v'; s_cursor := from; s_stamp := stamp;
             s_calls := GetBlockNumber :: cs; s_result := Throw e |}
      | Normal _ =>
          match getCurrentTime t with
          | Throw e =>
              {| s_view := v'; s_cursor := cur + 1; s_stamp := stamp;
                 s_calls := GetBlockNumber :: cs ++ [GetCurrentTime];
                 s_result := Throw e |}
          | Normal now =>
              {| s_view := v'; s_cursor := cur + 1; s_stamp := now;
                 s_calls := GetBlockNumber :: cs ++ [GetCurrentTime; LoggerDebug now];
                 s_result := Normal tt |}
          end
      end
  end.

(** ** Vocabulary of the statements *)

(** The events the transport returns for a kind over [[from, cur]], if any. *)
Definition fetched (t : Transport) (from cur : Z) (k : Kind) : list Web3Event.t :=
  match getPastEvents t (eventName k) from cur with
  | Normal evs => evs
  | Throw _ => []
  end.

Definition fetchOk (t : Transport) (from cur : Z) (k : Kind) : bool :=
  match getPastEvents t (eventName k) from cur with
  | Normal _ => true
  | Throw _ => false
  end.

(** The calls one [update] makes: those it adds to the log. *)
Definition asked (t : Transport) (w : World) : list Call :=
  drop (length (calls w)) (calls (fst (update t w))).

(** The calls of an [update] that completes: twelve fetches over
    [[from, cur]], then the clock and the debug log. *)
Definition fullCalls (from cur : Z) (now : value) : list Call :=
  GetBlockNumber :: (request from cur <$> order)
    ++ [GetCurrentTime; LoggerDebug now].

(** The block numbers of a cached sequence, in sequence order. *)
Definition blocks (k : Kind) (w : World) : list Z := blockNumber <$> events k w.

(** The blocks of the inclusive range [[from, to]]. *)
Definition blockRange (from to : Z) : list Z := seqZ from (to + 1 - from).

Definition fromIs (from : Z) (c : Call) : Prop :=
  match c with
  | GetPastEvents _ f _ => f = from
  | _ => True
  end.

Definition accessors : list (World → nat) :=
  [getAllNewSponsorEvents; getAllLiquidationEvents; getAllDisputeEvents;
   getAllDisputeSettlementEvents; getAllDepositEvents; getAllCreateEvents;
   getAllWithdrawEvents; getAllRedeemEvents; getAllRegularFeeEvents;
   getAllFinalFeeEvents; getAllLiquidationWithdrawnEvents;
   getAllSettleExpiredPositionEvents].

(** The PositionCreated array as the NewSponsor loop of a pass reads it. *)
Definition createdSeen (t : Transport) (from cur : Z) (v : View) : list EventRecord :=
  v PositionCreated ++ (literal (keys PositionCreated) <$> fetched t from cur PositionCreated).

(** What a pass that gets through a kind's block appends to it. *)
Definition appendedBy (t : Transport) (from cur : Z) (v : View) (k : Kind)
  : list EventRecord :=
  match k with
  | NewSponsor =>
      (correlate (createdSeen t from cur v) (fetched t from cur NewSponsor)).1
  | _ => literal (keys k) <$> fetched t from cur k
  end.

Definition upToNewSponsor : list Kind :=
  [LiquidationCreated; LiquidationDisputed; DisputeSettled; PositionCreated; NewSponsor].

(** A NewSponsor event and the record pushed for it: the amounts are those of
    the first record of [created] with the event's block number. *)
Definition correlated (created : list EventRecord) (event : Web3Event.t)
    (r : EventRecord) : Prop :=
  ∃ c rest, matching created event = c :: rest ∧ r = newSponsorLiteral event c.



(** The chain height a transport reports. *)
Definition height (t : Transport) : Z :=
  match getBlockNumber t with Normal n => n | Throw _ => 0 end.

Fixpoint nondecreasing (l : list Z) : bool :=
  match l with
  | a :: (b :: _) as l' => (a <=? b)%Z && nondecreasing l'
  | _ => true
  end.

(** What one [update] of a run scanned. *)
Record Scan : Type := {
  fromBlock : Z;
  toBlock : Z;
  made : list Call;
  cursorAfter : Z
}.

(** A run of [update] calls, one transport per call. *)
Fixpoint scans (ts : list Transport) (w : World) : list Scan :=
  match ts with
  | [] => []
  | t :: ts' =>
      {| fromBlock := firstBlockToSearch (this w); toBlock := height t;
         made := asked t w;
         cursorAfter := firstBlockToSearch (this (fst (update t w))) |}
      :: scans ts' (fst (update t w))
  end.

Fixpoint allOk (ts : list Transport) (w : World) : bool :=
  match ts with
  | [] => true
  | t :: ts' => isOk (snd (update t w)) && allOk ts' (fst (update t w))
  end.

Definition honestAnswer (from to : Z) (evs : list Web3Event.t) : bool :=
  let bs := Web3Event.blockNumber <$> evs in
  nondecreasing bs && forallb (λ b, (from <=? b)%Z && (b <=? to)%Z) bs.

(** The transport answers each kind's request over [[from, height]] with
    events of that range in ascending block order. *)
Definition honest (t : Transport) (from : Z) : bool :=
  forallb (λ k, honestAnswer from (height t) (fetched t from (height t) k)) order.

(** Every [update] of the history completes, is answered honestly, and sees
    a chain no shorter than the one before it. *)
Fixpoint disciplined (ops : list Op) (w : World) (seen : option Z) : bool :=
  match ops with
  | [] => true
  | Update t :: ops' =>
      isOk (snd (update t w)) && honest t (firstBlockToSearch (this w))
      && match seen with Some H => (H <=? height t)%Z | None => true end
      && disciplined ops' (fst (update t w)) (Some (height t))
  | o :: ops' => disciplined ops' (step w o) seen
  end.

Definition ordered (w : World) (seen : option Z) : Prop :=
  ∀ k, StronglySorted Z.le (blocks k w) ∧
       Forall (λ b, (b < firstBlockToSearch (this w))%Z ∧
                    match seen with Some H => (b ≤ H)%Z | None => False end)
              (blocks k w).

(** ** Fixtures *)

(** A node serving an on-chain log: each request is answered with the
    logged events of the requested block range, in log order; requests for
    the names in [down] are rejected. *)
Definition node (height : Z) (log : gmap string (list Web3Event.t))
    (down : list string) : Transport :=
  {| getBlockNumber := Normal height;
     getPastEvents := λ name from to,
       if bool_decide (name ∈ down) then Throw (RpcError "timeout")
       else Normal (List.filter
              (λ e, (from <=? Web3Event.blockNumber e)%Z
                    && (Web3Event.blockNumber e <=? to)%Z)
              (default [] (log !! name)));
     getCurrentTime := Normal (str "1600000000") |}.

Definition liquidation (b : Z) : Web3Event.t :=
  Web3Event.mk "0x11" b {[ "sponsor" := str "0x01"; "liquidationId" := str "0" ]}.

Definition created (b : Z) : Web3Event.t :=
  Web3Event.mk "0xc0" b
    {[ "sponsor" := str "0x01"; "collateralAmount" := str "5";
       "tokenAmount" := str "7" ]}.

Definition sponsor (b : Z) : Web3Event.t :=
  Web3Event.mk "0xc0" b {[ "sponsor" := str "0x01" ]}.

(** The spec's scenario: one PositionCreated and one NewSponsor at block 80. *)
Definition matched : gmap string (list Web3Event.t) :=
  {[ "PositionCreated" := [created 80]; "NewSponsor" := [sponsor 80] ]}.

(** The spec's second scenario: the NewSponsor event is at block 81. *)
Definition unmatched : gmap string (list Web3Event.t) :=
  {[ "LiquidationCreated" := [liquidation 60];
     "PositionCreated" := [created 80]; "NewSponsor" := [sponsor 81] ]}.


Definition twoLiquidations : gmap string (list Web3Event.t) :=
  {[ "LiquidationCreated" := [liquidation 60; liquidation 80] ]}.

Definition fourLiquidations : gmap string (list Web3Event.t) :=
  {[ "LiquidationCreated" :=
       [liquidation 60; liquidation 80; liquidation 110; liquidation 125] ]}.

(** ** The monad and the heap *)

Lemma bind_run {A B} (m : M A) (f : A → M B) w :
  (m ≫= f) w = match m w with
               | (w', Normal a) => f a w'
               | (w', Throw e) => (w', Throw e)
               end.
Proof. reflexivity. Qed.

Lemma appendTo_nil r w : appendTo r [] w = w.
Proof.
  destruct w as [h c l]. unfold appendTo; simpl. f_equal.
  apply list_alter_id. intros a. apply app_nil_r.
Qed.

Lemma appendTo_appendTo r xs ys w :
  appendTo r ys (appendTo r xs w) = appendTo r (xs ++ ys) w.
Proof.
  unfold appendTo; cbn [heap this calls]. f_equal.
  rewrite list_alter_alter_eq. apply list_alter_ext; [|done].
  intros a _. simpl. by rewrite app_assoc.
Qed.

Lemma forOf_push fld (mk : Web3Event.t → EventRecord) (evs : list Web3Event.t) w :
  forOf evs (λ event, push fld (mk event)) w
  = (appendTo (fld (this w)) (mk <$> evs) w, Normal tt).
Proof.
  revert w. induction evs as [|e evs IH]; intros w; simpl.
  - by rewrite appendTo_nil.
  - rewrite bind_run. unfold push at 1.
    rewrite IH. simpl.
    change {| heap := alter (λ a, a ++ [mk e]) (fld (this w)) (heap w);
              this := this w; calls := calls w |}
      with (appendTo (fld (this w)) [mk e] w).
    by rewrite appendTo_appendTo.
Qed.

Lemma ingest_run t name fld mk cur w :
  ingest t name fld mk cur w =
  let w1 := logged (GetPastEvents name (firstBlockToSearch (this w)) cur) w in
  match getPastEvents t name (firstBlockToSearch (this w)) cur with
  | Normal evs => (appendTo (fld (this w)) (mk <$> evs) w1, Normal tt)
  | Throw e => (w1, Throw e)
  end.
Proof.
  unfold ingest. rewrite bind_run. unfold emp_getPastEvents.
  rewrite bind_run. unfold getThis, call. 
  destruct (getPastEvents t name _ cur) as [evs|e]; [|done].
  by rewrite forOf_push.
Qed.

Lemma deref_alter_eq f r (h : Heap) :
  (r < length h)%nat → deref (alter f r h) r = f (deref h r).
Proof.
  intros Hr. unfold deref. rewrite list_lookup_alter_eq.
  destruct (lookup_lt_is_Some_2 h r Hr) as [a ->]. done.
Qed.

Lemma deref_alter_ne f r r' (h : Heap) :
  r ≠ r' → deref (alter f r h) r' = deref h r'.
Proof. intros Hr. unfold deref. by rewrite list_lookup_alter_ne. Qed.

Lemma events_appendTo k k' recs w :
  wf w →
  events k' (appendTo (field k (this w)) recs w) = add k recs (λ j, events j w) k'.
Proof.
  intros [Hlt Hinj]. unfold events, getEvents, add; simpl.
  destruct (decide (k' = k)) as [->|Hne].
  - by rewrite deref_alter_eq.
  - rewrite deref_alter_ne; [done|]. intros E. by apply Hinj in E.
Qed.

Lemma wf_appendTo r recs w : wf w → wf (appendTo r recs w).
Proof. intros [Hlt Hinj]. split; simpl; [|done]. intros k. by rewrite length_alter. Qed.

Lemma wf_logged c w : wf w → wf (logged c w).
Proof. done. Qed.

Lemma newSponsor_loop evs w :
  newSponsorEvents (this w) ≠ createEvents (this w) →
  forOf evs newSponsorBody w =
  let '(recs, r) := correlate (deref (heap w) (createEvents (this w))) evs in
  (appendTo (newSponsorEvents (this w)) recs w, r).
Proof.
  intros Hne. revert w Hne. induction evs as [|e evs IH]; intros w Hne.
  - simpl. by rewrite appendTo_nil.
  - cbn [forOf correlate]. rewrite bind_run. unfold newSponsorBody at 1.
    rewrite bind_run. unfold getThis at 1. rewrite bind_run. unfold read at 1.
    cbn zeta.
    destruct (matching _ e) as [|c cs] eqn:Hm.
    + cbn. by rewrite appendTo_nil.
    + cbn [lookup list_lookup]. unfold push at 1.
      change {| heap := alter ?f ?r (heap w); this := this w; calls := calls w |}
        with (appendTo (newSponsorEvents (this w)) [newSponsorLiteral e c] w).
      rewrite IH by done. cbn [appendTo heap this].
      rewrite deref_alter_ne by done.
      destruct (correlate _ evs) as [recs r].
      fold (appendTo (newSponsorEvents (this w)) [newSponsorLiteral e c] w).
      by rewrite appendTo_appendTo.
Qed.

Lemma grows_refl h : grows h h.
Proof. split; [lia|done]. Qed.

Lemma grows_trans h1 h2 h3 : grows h1 h2 → grows h2 h3 → grows h1 h3.
Proof. intros [L1 P1] [L2 P2]. split; [lia|]. intros r. etrans; [apply P1|apply P2]. Qed.

Lemma grows_alter r recs (h : Heap) : grows h (alter (λ a, a ++ recs) r h).
Proof.
  split; [by rewrite length_alter|]. intros r'.
  destruct (decide (r = r')) as [<-|Hne].
  - unfold deref. rewrite list_lookup_alter_eq.
    destruct (h !! r); simpl; [by apply prefix_app_r|done].
  - by rewrite deref_alter_ne.
Qed.

Lemma grows_alloc (h : Heap) n : grows h (h ++ replicate n []).
Proof.
  split; [rewrite length_app; lia|]. intros r. unfold deref.
  destruct (h !! r) as [a|] eqn:E.
  - rewrite (lookup_app_l_Some _ _ _ _ E). reflexivity.
  - apply prefix_nil.
Qed.

Lemma wf_mono w w' :
  wf w → this w' = this w → (length (heap w) ≤ length (heap w'))%nat → wf w'.
Proof.
  intros [Hlt Hinj] Ht Hl. split; rewrite Ht; [|done].
  intros k. specialize (Hlt k). lia.
Qed.

(** ** One pass, stage by stage *)

Section Pass.
Variable t : Transport.
Variables from cur : Z.

Lemma add_nil k (v : View) j : add k [] v j = v j.
Proof. unfold add. destruct (decide _); [apply app_nil_r|done]. Qed.

Lemma stage_run k w v :
  wf w → firstBlockToSearch (this w) = from → (∀ j, events j w = v j) →
  let w' := fst (stage t cur k w) in
  this w' = this w ∧ grows (heap w) (heap w') ∧
  calls w' = calls w ++ [request from cur k] ∧
  snd (stage t cur k w) = snd (stageV t from cur k v) ∧
  ∀ j, events j w' = fst (stageV t from cur k v) j.
Proof.
  intros Hwf Hfrom Hv.
  assert (Hplain : ∀ fld, fld = field k →
    let w' := fst (ingest t (eventName k) fld (literal (keys k)) cur w) in
    this w' = this w ∧ grows (heap w) (heap w') ∧
    calls w' = calls w ++ [request from cur k] ∧
    snd (ingest t (eventName k) fld (literal (keys k)) cur w) =
      match getPastEvents t (eventName k) from cur with
      | Normal _ => Normal tt | Throw e => Throw e end ∧
    ∀ j, events j w' =
      match getPastEvents t (eventName k) from cur with
      | Normal evs => add k (literal (keys k) <$> evs) v j
      | Throw e => v j end).
  { intros fld ->. rewrite ingest_run, Hfrom. cbn zeta.
    destruct (getPastEvents t (eventName k) from cur) as [evs|e]; cbn.
    - split_and!; [done|apply grows_alter|done|done|].
      intros j. 
      change (events j (appendTo (field k (this (logged (request from cur k) w)))
                (literal (keys k) <$> evs) (logged (request from cur k) w)) = add k (literal (keys k) <$> evs) v j).
      rewrite events_appendTo by done. unfold add.
      change (events j (logged (request from cur k) w)) with (events j w).
      rewrite Hv. done.
    - split_and!; [done|apply grows_refl|done|done|done]. }
  unfold stage, stageV.
  destruct k; try (specialize (Hplain _ eq_refl); cbn zeta in Hplain;
    destruct Hplain as (H1 & H2 & H3 & H4 & H5); 
    destruct (getPastEvents t _ from cur) as [evs|e]; done).
  clear Hplain. unfold ingestNewSponsor. rewrite bind_run.
  unfold emp_getPastEvents. rewrite bind_run. unfold getThis, call.
  rewrite Hfrom. fold (request from cur NewSponsor). cbn [eventName].
  destruct (getPastEvents t "NewSponsor" from cur) as [evs|e]; cbn zeta.
  - rewrite newSponsor_loop.
    2:{ cbn. intros E. by apply (proj2 Hwf NewSponsor PositionCreated) in E. }
    cbn [heap this calls]. 
    change (deref (heap w) (createEvents (this w))) with (events PositionCreated w).
    rewrite Hv. destruct (correlate _ evs) as [recs r]. cbn.
    split_and!; [done|apply grows_alter|done|done|].
    intros j.
    change (events j (appendTo (field NewSponsor (this (logged (request from cur NewSponsor) w)))
                recs (logged (request from cur NewSponsor) w)) = add NewSponsor recs v j).
    rewrite events_appendTo by done. unfold add.
    change (events j (logged (request from cur NewSponsor) w)) with (events j w).
    by rewrite Hv.
  - cbn. split_and!; [done|apply grows_refl|done|done|done].
Qed.

Lemma stages_run ks : ∀ w v,
  wf w → firstBlockToSearch (this w) = from → (∀ j, events j w = v j) →
  let w' := fst (forOf ks (stage t cur) w) in
  this w' = this w ∧ grows (heap w) (heap w') ∧
  calls w' = calls w ++ (stagesV t from cur ks v).1.2 ∧
  snd (forOf ks (stage t cur) w) = (stagesV t from cur ks v).2 ∧
  ∀ j, events j w' = (stagesV t from cur ks v).1.1 j.
Proof.
  induction ks as [|k ks IH]; intros w v Hwf Hfrom Hv; cbn zeta.
  - cbn. rewrite app_nil_r. split_and!; [done|apply grows_refl|done|done|done].
  - cbn [forOf stagesV]. rewrite bind_run.
    destruct (stage_run k w v Hwf Hfrom Hv) as (T1 & G1 & C1 & R1 & E1).
    destruct (stage t cur k w) as [w1 r1]. cbn [fst snd] in *.
    destruct (stageV t from cur k v) as [v1 r1']. cbn [fst snd] in *. subst r1'.
    destruct r1 as [[]|e].
    + assert (Hwf1 : wf w1) by (eapply wf_mono; [done..|apply G1]).
      destruct (IH w1 v1 Hwf1 ltac:(by rewrite T1) E1) as (T2 & G2 & C2 & R2 & E2).
      destruct (stagesV t from cur ks v1) as [[v2 cs] r2]. cbn [fst snd] in *.
      split_and!; [congruence|by eapply grows_trans| |done|done].
      rewrite C2, C1. by rewrite <- app_assoc.
    + cbn. split_and!; done.
Qed.

End Pass.

Lemma update_staged t w : update t w = staged t w.
Proof.
  unfold update, staged.
  unfold mbind, M_bind.
  destruct (web3_eth_getBlockNumber t w) as [w0 [cur|e]]; [|reflexivity].
  cbn [forOf order stage eventName field keys].
  unfold mbind, M_bind.
  repeat match goal with
  | |- context [ingest ?a ?b ?c ?d ?e ?w] =>
      destruct (ingest a b c d e w) as [? [[]|?]]; [|reflexivity]
  | |- context [ingestNewSponsor ?a ?b ?w] =>
      destruct (ingestNewSponsor a b w) as [? [[]|?]]; [|reflexivity]
  end.
  reflexivity.
Qed.

Lemma call_run {A} c (r : Completion A) w : call c r w = (logged c w, r).
Proof. reflexivity. Qed.

Lemma finish_run t cur w :
  finish t cur w =
  let c1 := set_firstBlockToSearch (cur + 1) (this w) in
  match getCurrentTime t with
  | Normal now =>
      ({| heap := heap w; this := set_lastUpdateTimestamp now c1;
          calls := calls w ++ [GetCurrentTime; LoggerDebug now] |}, Normal tt)
  | Throw e =>
      ({| heap := heap w; this := c1; calls := calls w ++ [GetCurrentTime] |}, Throw e)
  end.
Proof.
  unfold finish, mbind, M_bind, getThis, setThis, call.
  destruct (getCurrentTime t) as [now|e]; cbn; [|done].
  by rewrite <- app_assoc.
Qed.

Lemma update_run t w v :
  wf w → (∀ j, events j w = v j) →
  let w' := fst (update t w) in
  let s := updateV t (firstBlockToSearch (this w)) (lastUpdateTimestamp (this w)) v in
  wf w' ∧ (∀ k, getEvents k w' = getEvents k w) ∧ grows (heap w) (heap w') ∧
  calls w' = calls w ++ s_calls s ∧
  snd (update t w) = s_result s ∧
  (∀ j, events j w' = s_view s j) ∧
  firstBlockToSearch (this w') = s_cursor s ∧
  lastUpdateTimestamp (this w') = s_stamp s.
Proof.
  intros Hwf Hv. rewrite update_staged. unfold staged, updateV.
  rewrite bind_run. unfold web3_eth_getBlockNumber. rewrite call_run.
  destruct (getBlockNumber t) as [cur|e].
  2:{ cbn. split_and!; try done; try apply grows_refl. }
  cbv beta iota. rewrite bind_run.
  set (w0 := logged GetBlockNumber w).
  destruct (stages_run t (firstBlockToSearch (this w)) cur order w0 v) 
    as (T1 & G1 & C1 & R1 & E1); [done..|].
  destruct (forOf order (stage t cur) w0) as [w1 r1].
  destruct (stagesV _ _ _ order v) as [[v1 cs] r1'].
  cbn [fst snd] in *. subst r1'.
  assert (Hwf1 : wf w1) by (eapply (wf_mono w0); [done..|apply G1]).
  change (this w0) with (this w) in T1. change (heap w0) with (heap w) in G1.
  change (calls w0) with (calls w ++ [GetBlockNumber]) in C1. clearbody w0.
  destruct r1 as [[]|e].
  2:{ cbn [fst snd s_view s_cursor s_stamp s_calls s_result].
      split_and!; try done. 
      all: try (intros k; unfold getEvents);
        rewrite ?T1, ?C1; cbn; rewrite <- ?app_assoc; done. }
  rewrite finish_run. cbv zeta.
  assert (Hwf2 : ∀ c l,
            (∀ k, field k c = field k (this w1)) →
            wf {| heap := heap w1; this := c; calls := l |}).
  { intros c l Hc. destruct Hwf1 as [L I]. split; cbn [heap this].
    - intros k. rewrite Hc. apply L.
    - intros k k'. rewrite !Hc. apply I. }
  destruct (getCurrentTime t) as [now|e];
    cbn [fst snd heap this calls s_view s_cursor s_stamp s_calls s_result].
  - split_and!; try done.
    + apply Hwf2. by intros [].
    + intros k. unfold getEvents. cbn [this]. rewrite <- T1. by destruct k.
    + rewrite C1. by rewrite <- !app_assoc.
    + intros j. rewrite <- E1. unfold events, getEvents. cbn [heap this]. by destruct j.
  - split_and!; try done.
    + apply Hwf2. by intros [].
    + intros k. unfold getEvents. cbn [this]. rewrite <- T1. by destruct k.
    + rewrite C1. by rewrite <- !app_assoc.
    + intros j. rewrite <- E1. unfold events, getEvents. cbn [heap this]. by destruct j.
    + cbn. by rewrite T1.
Qed.

(** ** Histories *)

Lemma fresh_lookup (h : Heap) k b s :
  (h ++ replicate 12 []) !! field k (freshArrays (length h) b s) = Some [].
Proof.
  rewrite lookup_app_r by (destruct k; cbn; lia).
  apply lookup_replicate_2. destruct k; cbn; lia.
Qed.

Lemma wf_fresh (h : Heap) b s l :
  wf {| heap := h ++ replicate 12 [];
        this := freshArrays (length h) b s; calls := l |}.
Proof.
  split; cbn [heap this].
  - intros k. apply lookup_lt_is_Some. rewrite fresh_lookup. eauto.
  - intros k k'. destruct k, k'; cbn; intros E; first [reflexivity | lia].
Qed.

Lemma events_fresh (h : Heap) b s l k :
  events k {| heap := h ++ replicate 12 [];
              this := freshArrays (length h) b s; calls := l |} = [].
Proof. unfold events, getEvents, deref. cbn [heap this]. by rewrite fresh_lookup. Qed.

Lemma wf_construct h b : wf (construct h b).
Proof. apply wf_fresh. Qed.

Lemma update_view t w :
  wf w →
  let w' := fst (update t w) in
  let s := updateV t (firstBlockToSearch (this w)) (lastUpdateTimestamp (this w))
             (view w) in
  wf w' ∧ (∀ k, getEvents k w' = getEvents k w) ∧ grows (heap w) (heap w') ∧
  calls w' = calls w ++ s_calls s ∧
  snd (update t w) = s_result s ∧
  (∀ j, events j w' = s_view s j) ∧
  firstBlockToSearch (this w') = s_cursor s ∧
  lastUpdateTimestamp (this w') = s_stamp s.
Proof. intros Hwf. by apply update_run. Qed.

Lemma wf_step w o : wf w → wf (step w o).
Proof.
  intros Hwf. destruct o as [t| |k]; cbn [step].
  - apply (update_view t w Hwf).
  - apply wf_fresh.
  - done.
Qed.

Lemma grows_step w o : wf w → grows (heap w) (heap (step w o)).
Proof.
  intros Hwf. destruct o as [t| |k]; cbn [step].
  - apply (update_view t w Hwf).
  - apply grows_alloc.
  - apply grows_refl.
Qed.

Lemma wf_exec ops : ∀ w, wf w → wf (exec ops w).
Proof.
  induction ops as [|o ops IH]; intros w Hwf; [done|].
  apply IH. by apply wf_step.
Qed.

Lemma grows_exec ops : ∀ w, wf w → grows (heap w) (heap (exec ops w)).
Proof.
  induction ops as [|o ops IH]; intros w Hwf; [apply grows_refl|].
  eapply grows_trans; [by apply grows_step|]. apply IH. by apply wf_step.
Qed.

Lemma wf_reachable h b ops : wf (exec ops (construct h b)).
Proof. apply wf_exec, wf_construct. Qed.

Lemma asked_summary t w :
  wf w →
  asked t w = s_calls (updateV t (firstBlockToSearch (this w))
                         (lastUpdateTimestamp (this w)) (view w)).
Proof.
  intros Hwf. unfold asked.
  destruct (update_view t w Hwf) as (_ & _ & _ & -> & _).
  by rewrite drop_app_length.
Qed.

Lemma stagesV_calls t from cur ks : ∀ v,
  ∃ n, (stagesV t from cur ks v).1.2 = request from cur <$> take n ks ∧
       ((stagesV t from cur ks v).2 = Normal tt → n = length ks).
Proof.
  induction ks as [|k ks IH]; intros v; cbn [stagesV].
  - by exists 0%nat.
  - destruct (stageV t from cur k v) as [v1 [[]|e]].
    + destruct (IH v1) as (n & Hn & Hok).
      destruct (stagesV t from cur ks v1) as [[v2 cs] r]. cbn [fst snd] in *.
      exists (S n). split; [by rewrite Hn|]. intros ->. cbn. f_equal. by apply Hok.
    + exists 1%nat. cbn. split; [by rewrite take_0|done].
Qed.

Lemma updateV_calls_from t from stamp v :
  Forall (fromIs from) (s_calls (updateV t from stamp v)).
Proof.
  unfold updateV. destruct (getBlockNumber t) as [cur|e].
  2:{ repeat constructor. }
  destruct (stagesV_calls t from cur order v) as (n & Hn & _).
  destruct (stagesV t from cur order v) as [[v1 cs] r]. cbn [fst snd] in Hn.
  assert (Hcs : Forall (fromIs from) cs).
  { rewrite Hn. apply Forall_fmap, Forall_forall. by intros k _. }
  destruct r as [[]|e]; [destruct (getCurrentTime t)|]; cbn [s_calls];
    repeat first [apply Forall_cons; split; [done|] | apply Forall_app; split
                 | apply Forall_nil | done ].
    all: repeat constructor.
Qed.

Lemma updateV_ok t from stamp v :
  s_result (updateV t from stamp v) = Normal tt →
  ∃ cur now, getBlockNumber t = Normal cur ∧ getCurrentTime t = Normal now ∧
    (stagesV t from cur order v).2 = Normal tt ∧
    s_view (updateV t from stamp v) = (stagesV t from cur order v).1.1 ∧
    s_calls (updateV t from stamp v) = fullCalls from cur now ∧
    s_cursor (updateV t from stamp v) = (cur + 1)%Z ∧
    s_stamp (updateV t from stamp v) = now.
Proof.
  unfold updateV. destruct (getBlockNumber t) as [cur|e]; [|done].
  destruct (stagesV_calls t from cur order v) as (n & Hn & Hok).
  destruct (stagesV t from cur order v) as [[v1 cs] r] eqn:Hst. cbn [fst snd] in *.
  destruct r as [[]|e]; [|done].
  destruct (getCurrentTime t) as [now|e]; [|done]. intros _.
  exists cur, now. rewrite Hst. split_and!; try done. cbn [s_calls]. unfold fullCalls.
  subst cs. rewrite (Hok eq_refl). by rewrite firstn_all.
Qed.

Section PassFacts.
Variable t : Transport.
Variables from cur : Z.

Lemma fetchOk_fetched k :
  fetchOk t from cur k = true →
  getPastEvents t (eventName k) from cur = Normal (fetched t from cur k).
Proof. unfold fetchOk, fetched. by destruct (getPastEvents _ _ _ _). Qed.

Lemma stageV_plain k v :
  k ≠ NewSponsor → fetchOk t from cur k = true →
  stageV t from cur k v = (add k (literal (keys k) <$> fetched t from cur k) v, Normal tt).
Proof.
  intros Hk Hok. unfold stageV. rewrite (fetchOk_fetched k Hok). by destruct k.
Qed.

Lemma stageV_NewSponsor v :
  fetchOk t from cur NewSponsor = true →
  stageV t from cur NewSponsor v =
  let '(recs, r) := correlate (v PositionCreated) (fetched t from cur NewSponsor) in
  (add NewSponsor recs v, r).
Proof. intros Hok. unfold stageV. by rewrite (fetchOk_fetched _ Hok). Qed.

Lemma stageV_failed k v :
  fetchOk t from cur k = false → ∃ e, stageV t from cur k v = (v, Throw e).
Proof.
  unfold fetchOk, stageV. destruct (getPastEvents _ _ _ _) as [|e]; [done|]. eauto.
Qed.

Lemma add_same k r (v : View) : add k r v k = v k ++ r.
Proof. unfold add. by rewrite decide_True. Qed.

Lemma add_other k k' r (v : View) : k' ≠ k → add k r v k' = v k'.
Proof. intros. unfold add. by rewrite decide_False. Qed.

Ltac simpl_add :=
  repeat first [rewrite add_same | rewrite add_other by discriminate].

Lemma stagesV_correlation_fails v e :
  forallb (fetchOk t from cur) upToNewSponsor = true →
  (correlate (createdSeen t from cur v) (fetched t from cur NewSponsor)).2 = Throw e →
  (stagesV t from cur order v).2 = Throw e ∧
  (stagesV t from cur order v).1.2 = request from cur <$> upToNewSponsor ∧
  ∀ k, (stagesV t from cur order v).1.1 k =
       v k ++ (if bool_decide (k ∈ upToNewSponsor) then appendedBy t from cur v k else []).
Proof.
  cbn [forallb upToNewSponsor]. rewrite !andb_true_iff.
  intros (H1 & H2 & H3 & H4 & H5 & _) Hc.
  cbn [stagesV order].
  rewrite !stageV_plain by done. rewrite stageV_NewSponsor by done.
  simpl_add. unfold appendedBy.
  fold (createdSeen t from cur v).
  destruct (correlate _ _) as [recs r]. cbn [fst snd] in *. subst r.
  split_and!; [done..|].
  intros k. destruct k; simpl_add; cbn; rewrite ?app_nil_r; done.
Qed.

Lemma stagesV_ok v :
  (stagesV t from cur order v).2 = Normal tt →
  forallb (fetchOk t from cur) order = true ∧
  (correlate (createdSeen t from cur v) (fetched t from cur NewSponsor)).2 = Normal tt ∧
  ∀ k, (stagesV t from cur order v).1.1 k = v k ++ appendedBy t from cur v k.
Proof.
  cbn [stagesV order forallb].
  repeat match goal with
  | |- context [stageV t from cur ?k ?vv] =>
      let H := fresh "H" in
      destruct (fetchOk t from cur k) eqn:H;
      [ first [ rewrite (stageV_plain k vv) by done
              | rewrite (stageV_NewSponsor vv H); simpl_add;
                fold (createdSeen t from cur v);
                destruct (correlate (createdSeen t from cur v) _) as [recs [[]|?]] eqn:Hcor;
                [|done] ]
      | destruct (stageV_failed k vv H) as [? ->]; done ]
  end.
  intros _. split_and!; [done..|].
  intros k. unfold appendedBy. rewrite Hcor.
  destruct k; simpl_add; done.
Qed.

(** What the NewSponsor block does, whatever happens after it. *)
Lemma stagesV_NewSponsor v :
  forallb (fetchOk t from cur) upToNewSponsor = true →
  (stagesV t from cur order v).1.1 NewSponsor = v NewSponsor ++ appendedBy t from cur v NewSponsor ∧
  ((correlate (createdSeen t from cur v) (fetched t from cur NewSponsor)).2 = Throw undefined_read →
   (stagesV t from cur order v).2 = Throw undefined_read).
Proof.
  intros Hfive. split.
  - destruct (correlate (createdSeen t from cur v) (fetched t from cur NewSponsor)) as [recs [[]|e]] eqn:Hc.
    + revert Hfive. cbn [forallb upToNewSponsor]. rewrite !andb_true_iff.
      intros (H1 & H2 & H3 & H4 & H5 & _).
      cbn [stagesV order].
      rewrite !stageV_plain by done. rewrite stageV_NewSponsor by done.
      simpl_add. fold (createdSeen t from cur v). rewrite Hc.
      unfold appendedBy. rewrite Hc. cbn [fst].
      repeat match goal with
      | |- context [stageV t from cur ?k ?vv] =>
          let H := fresh "H" in
          destruct (fetchOk t from cur k) eqn:H;
          [ rewrite (stageV_plain k vv) by done
          | destruct (stageV_failed k vv H) as [? ->]; cbn [fst snd]; simpl_add; done ]
      end.
      cbn [fst snd]. simpl_add. done.
    + destruct (stagesV_correlation_fails v e Hfive) as (_ & _ & ->); [by rewrite Hc|].
      by rewrite app_nil_r || done.
  - intros Hc. by apply stagesV_correlation_fails.
Qed.

End PassFacts.

Lemma matching_block created e e' :
  Web3Event.blockNumber e = Web3Event.blockNumber e' →
  matching created e = matching created e'.
Proof. unfold matching. by intros ->. Qed.

Lemma correlate_shape created evs :
  ∃ pre post,
    evs = pre ++ post ∧
    Forall2 (correlated created) pre (correlate created evs).1 ∧
    ((post = [] ∧ (correlate created evs).2 = Normal tt) ∨
     (∃ event post', post = event :: post' ∧ matching created event = [] ∧
        (correlate created evs).2 = Throw undefined_read)).
Proof.
  induction evs as [|e evs (pre & post & -> & HF & Hend)]; cbn [correlate].
  - exists [], []. split_and!; [done|constructor|by left].
  - destruct (matching created e) as [|c cs] eqn:Hm.
    + exists [], (e :: pre ++ post). split_and!; [done|constructor|].
      right. by exists e, (pre ++ post).
    + destruct (correlate created (pre ++ post)) as [recs r]. cbn [fst snd] in *.
      exists (e :: pre), post. split_and!; [done| |done].
      constructor; [|done]. by exists c, cs.
Qed.

Lemma correlate_unmatched created evs event :
  event ∈ evs → matching created event = [] →
  (correlate created evs).2 = Throw undefined_read ∧
  Forall (λ r, blockNumber r ≠ Web3Event.blockNumber event) (correlate created evs).1.
Proof.
  intros Hin Hno. induction evs as [|e evs IH]; [by apply elem_of_nil in Hin|].
  cbn [correlate]. destruct (matching created e) as [|c cs] eqn:Hm.
  - split; [done|constructor].
  - apply elem_of_cons in Hin as [->|Hin]; [congruence|].
    destruct (IH Hin) as [Hr HF].
    destruct (correlate created evs) as [recs r]. cbn [fst snd] in *.
    split; [done|]. constructor; [|done]. cbn.
    intros E. rewrite (matching_block created e event E) in Hm. congruence.
Qed.

Lemma updateV_view t from stamp v cur :
  getBlockNumber t = Normal cur →
  s_view (updateV t from stamp v) = (stagesV t from cur order v).1.1.
Proof.
  intros Hcur. unfold updateV. rewrite Hcur.
  destruct (stagesV t from cur order v) as [[v' cs] [[]|e]];
    [destruct (getCurrentTime t)|]; done.
Qed.

Lemma updateV_throw t from stamp v cur e :
  getBlockNumber t = Normal cur →
  (stagesV t from cur order v).2 = Throw e →
  s_result (updateV t from stamp v) = Throw e ∧
  s_cursor (updateV t from stamp v) = from ∧
  s_stamp (updateV t from stamp v) = stamp.
Proof.
  intros Hcur. unfold updateV. rewrite Hcur.
  destruct (stagesV t from cur order v) as [[v' cs] r]. cbn [snd]. by intros ->.
Qed.

Lemma update_ok t w :
  wf w → snd (update t w) = Normal tt →
  let from := firstBlockToSearch (this w) in
  ∃ cur now,
    getBlockNumber t = Normal cur ∧ getCurrentTime t = Normal now ∧
    forallb (fetchOk t from cur) order = true ∧
    (correlate (createdSeen t from cur (view w)) (fetched t from cur NewSponsor)).2
      = Normal tt ∧
    (∀ k, events k (fst (update t w)) = events k w ++ appendedBy t from cur (view w) k) ∧
    asked t w = fullCalls from cur now ∧
    firstBlockToSearch (this (fst (update t w))) = (cur + 1)%Z ∧
    lastUpdateTimestamp (this (fst (update t w))) = now.
Proof.
  intros Hwf Hok from. rewrite (asked_summary t w Hwf).
  destruct (update_view t w Hwf) as (_ & _ & _ & _ & Hr & Hv & Hc & Hs).
  rewrite Hr in Hok.
  apply updateV_ok in Hok as (cur & now & Hcur & Hnow & Hst & Hview & Hcalls & Hcursor & Hstamp).
  destruct (stagesV_ok t from cur (view w) Hst) as (Hall & Hcor & Happ).
  exists cur, now. split_and!; try done.
  - intros k. by rewrite Hv, Hview, Happ.
  - by rewrite Hc.
  - by rewrite Hs.
Qed.

Lemma isOk_Normal (c : Completion unit) : isOk c = true → c = Normal tt.
Proof. by destruct c as [[]|]. Qed.

Lemma nondecreasing_cons a l :
  nondecreasing (a :: l) = true →
  nondecreasing l = true ∧ (a ≤ default a (last l))%Z ∧
  match l with b :: _ => (a ≤ b)%Z | [] => True end.
Proof.
  revert a. induction l as [|b l IH]; intros a; [done|].
  cbn [nondecreasing]. rewrite andb_true_iff, Z.leb_le. intros [Hab Hl].
  split_and!; [done| |done].
  destruct (IH b Hl) as (_ & Hlast & _).
  rewrite last_cons. destruct (last l) as [y|]; unfold default, id in *; cbn [from_option] in *; lia.
Qed.

Lemma blockRange_app a b c :
  (a ≤ b + 1)%Z → (b ≤ c)%Z →
  blockRange a b ++ blockRange (b + 1) c = blockRange a c.
Proof.
  intros Hab Hbc. unfold blockRange.
  replace (c + 1 - a)%Z with ((b + 1 - a) + (c + 1 - (b + 1)))%Z by lia.
  rewrite seqZ_app by lia. f_equal. f_equal. lia.
Qed.

Lemma scans_run ts : ∀ w,
  wf w → allOk ts w = true →
  nondecreasing ((firstBlockToSearch (this w) - 1)%Z :: (height <$> ts)) = true →
  Forall (λ s, ∃ now, made s = fullCalls (fromBlock s) (toBlock s) now ∧
                      cursorAfter s = (toBlock s + 1)%Z) (scans ts w) ∧
  Sorted Z.le (firstBlockToSearch (this w) :: (cursorAfter <$> scans ts w)) ∧
  flat_map (λ s, blockRange (fromBlock s) (toBlock s)) (scans ts w) =
    blockRange (firstBlockToSearch (this w))
      (default (firstBlockToSearch (this w) - 1)%Z (last (height <$> ts))).
Proof.
  induction ts as [|t ts IH]; intros w Hwf Hok Hmono.
  - cbn. split_and!; [constructor|repeat constructor|].
    unfold blockRange. rewrite seqZ_nil; [done|lia].
  - cbn [allOk] in Hok. apply andb_true_iff in Hok as [Hok1 Hoks].
    apply isOk_Normal in Hok1.
    destruct (update_ok t w Hwf Hok1)
      as (cur & now & Hcur & _ & _ & _ & _ & Hasked & Hcursor & _).
    assert (Hh : height t = cur) by (unfold height; by rewrite Hcur).
    assert (Hwf1 : wf (fst (update t w))) by apply (update_view t w Hwf).
    rewrite fmap_cons, Hh in Hmono.
    apply nondecreasing_cons in Hmono as (Hmono & _ & Hle).
    specialize (IH (fst (update t w)) Hwf1 Hoks).
    rewrite Hcursor in IH. replace (cur + 1 - 1)%Z with cur in IH by lia.
    destruct (IH Hmono) as (IH1 & IH2 & IH3).
    apply nondecreasing_cons in Hmono as (_ & Hlast & _).
    cbn [scans fmap list_fmap flat_map fromBlock toBlock made cursorAfter].
    rewrite Hh, Hcursor. split_and!.
    + constructor; [|done]. by exists now.
    + constructor; [done|]. constructor. lia.
    + rewrite IH3, last_cons.
      destruct (last (height <$> ts)) as [y|]; unfold default, id in *; cbn [from_option] in *.
      * apply blockRange_app; lia.
      * unfold blockRange at 2. rewrite seqZ_nil by lia.
        by rewrite app_nil_r.
Qed.

Lemma nondecreasing_sorted l : nondecreasing l = true → StronglySorted Z.le l.
Proof.
  intros H. apply Sorted_StronglySorted; [intros x y z; lia|].
  induction l as [|a l IH]; [constructor|].
  destruct (nondecreasing_cons a l H) as (Hl & _ & Hhd).
  constructor; [by apply IH|]. destruct l; constructor. done.
Qed.

Lemma honestAnswer_spec from to evs :
  honestAnswer from to evs = true →
  StronglySorted Z.le (Web3Event.blockNumber <$> evs) ∧
  Forall (λ b, (from ≤ b ≤ to)%Z) (Web3Event.blockNumber <$> evs).
Proof.
  unfold honestAnswer. cbn zeta. rewrite andb_true_iff, forallb_forall.
  intros [Hs Hr]. split; [by apply nondecreasing_sorted|].
  apply Forall_forall. intros b Hb. apply list_elem_of_In in Hb.
  specialize (Hr b Hb). apply andb_true_iff in Hr. lia.
Qed.

Lemma literal_blocks keys (evs : list Web3Event.t) :
  blockNumber <$> (literal keys <$> evs) = Web3Event.blockNumber <$> evs.
Proof. rewrite <- list_fmap_compose. done. Qed.

Lemma correlate_ok_blocks created evs :
  (correlate created evs).2 = Normal tt →
  blockNumber <$> (correlate created evs).1 = Web3Event.blockNumber <$> evs.
Proof.
  induction evs as [|e evs IH]; cbn [correlate]; [done|].
  destruct (matching created e) as [|c cs]; [done|].
  destruct (correlate created evs) as [recs r]. cbn [fst snd] in *.
  intros Hr. cbn. f_equal. by apply IH.
Qed.

Lemma appendedBy_blocks t from cur v k :
  (correlate (createdSeen t from cur v) (fetched t from cur NewSponsor)).2 = Normal tt →
  blockNumber <$> appendedBy t from cur v k = Web3Event.blockNumber <$> fetched t from cur k.
Proof.
  intros Hc. destruct k; cbn [appendedBy]; try apply literal_blocks.
  by apply correlate_ok_blocks.
Qed.

Lemma ordered_update t w seen :
  wf w → ordered w seen →
  snd (update t w) = Normal tt →
  honest t (firstBlockToSearch (this w)) = true →
  match seen with Some H => (H <=? height t)%Z | None => true end = true →
  ordered (fst (update t w)) (Some (height t)).
Proof.
  intros Hwf Hord Hok Hhon Hseen k.
  destruct (update_ok t w Hwf Hok)
    as (cur & now & Hcur & _ & _ & Hcor & Happ & _ & Hcursor & _).
  assert (Hh : height t = cur) by (unfold height; by rewrite Hcur).
  rewrite Hh in *. unfold blocks. rewrite Happ, Hcursor, fmap_app.
  rewrite (appendedBy_blocks _ _ _ _ _ Hcor).
  unfold honest in Hhon. rewrite forallb_forall in Hhon.
  assert (Hk : In k order) by (destruct k; cbn; tauto).
  apply Hhon, honestAnswer_spec in Hk as [Hs Hr]. rewrite Hh in Hs, Hr.
  destruct (Hord k) as [Hold Hbound]. fold (blocks k w) in *.
  rewrite Forall_forall in Hbound, Hr. split.
  - apply StronglySorted_app_2; [|done..].
    intros x1 x2 H1 H2. specialize (Hbound _ H1). specialize (Hr _ H2). lia.
  - apply Forall_app. split; apply Forall_forall; intros x Hx.
    + destruct (Hbound _ Hx) as [Hlt Hle]. destruct seen as [H|]; [|done].
      apply Z.leb_le in Hseen. lia.
    + specialize (Hr _ Hx). lia.
Qed.

Lemma ordered_empty w seen : (∀ k, events k w = []) → ordered w seen.
Proof. intros He k. unfold blocks. rewrite He. split; constructor. Qed.

Lemma disciplined_ordered ops : ∀ w seen,
  wf w → ordered w seen → disciplined ops w seen = true →
  ∀ k, Sorted Z.le (blocks k (exec ops w)).
Proof.
  induction ops as [|o ops IH]; intros w seen Hwf Hord Hd k.
  - apply StronglySorted_Sorted, Hord.
  - destruct o as [t| |j]; cbn [disciplined] in Hd; cbn [exec fold_left].
    + rewrite !andb_true_iff in Hd. destruct Hd as [[[Hok Hhon] Hseen] Hd].
      apply isOk_Normal in Hok.
      apply (IH (step w (Update t)) (Some (height t))); [by apply wf_step| |done].
      by apply (ordered_update t w seen).
    + apply (IH (step w ClearState) seen); [by apply wf_step| |done].
      apply ordered_empty. intros j. apply (events_fresh (heap w)).
    + by apply (IH w seen).
Qed.

(** ** The claims *)

Example scenario_matched :
  let '(w, r) := update (node 100 matched []) (construct [] 50) in
  r = Normal tt ∧
  length (deref (heap w) (getAllCreateEvents w)) = 1%nat ∧
  deref (heap w) (getAllNewSponsorEvents w) =
    [ {| transactionHash := "0xc0"; blockNumber := 80;
         payload := {[ "sponsor" := str "0x01"; "collateralAmount" := str "5";
                       "tokenAmount" := str "7" ]} |} ] ∧
  firstBlockToSearch (this w) = 101%Z ∧
  getLastUpdateTime w = str "1600000000".
Proof. vm_compute. done. Qed.

Example scenario_unmatched :
  let '(w, r) := update (node 100 unmatched []) (construct [] 50) in
  r = Throw undefined_read ∧
  deref (heap w) (getAllNewSponsorEvents w) = [] ∧
  length (deref (heap w) (getAllCreateEvents w)) = 1%nat ∧
  firstBlockToSearch (this w) = 50%Z.
Proof. vm_compute. done. Qed.

(** C2, as amended. When an [update] gets as far as the NewSponsor loop and
    some fetched NewSponsor event finds no PositionCreated record of its
    block number in the array the loop filters, which holds the records
    cached by earlier passes as well as those of this pass, [update] throws
    on reading [createEvent[0].collateralAmount] (the spec's
    ConsistencyError), and no record of that event's block number is
    appended to the NewSponsor sequence. *)
Theorem unmatched_NewSponsor_throws h b ops t cur event :
  let w := exec ops (construct h b) in
  let from := firstBlockToSearch (this w) in
  getBlockNumber t = Normal cur →
  forallb (fetchOk t from cur) upToNewSponsor = true →
  event ∈ fetched t from cur NewSponsor →
  matching (createdSeen t from cur (view w)) event = [] →
  snd (update t w) = Throw undefined_read ∧
  ∃ appended,
    events NewSponsor (fst (update t w)) = events NewSponsor w ++ appended ∧
    Forall (λ r, blockNumber r ≠ Web3Event.blockNumber event) appended.
Proof.
  intros w from Hcur Hfive Hin Hno.
  destruct (update_view t w (wf_reachable h b ops)) as (_ & _ & _ & _ & Hr & Hv & _).
  rewrite Hr, Hv, (updateV_view _ _ _ _ _ Hcur). clear Hr Hv. fold from.
  destruct (correlate_unmatched _ _ _ Hin Hno) as [Hthrow Hrecs].
  destruct (stagesV_correlation_fails t from cur (view w) _ Hfive Hthrow)
    as (Hres & _ & Hview).
  split; [by apply (updateV_throw _ _ _ _ _ _ Hcur Hres)|].
  eexists. split; [exact (Hview NewSponsor)|]. exact Hrecs.
Qed.

(** The spec's second scenario: NewSponsor at block 81, PositionCreated at 80. *)
Lemma unmatched_NewSponsor_throws_witness :
  let w := construct [] 50 in
  let t := node 100 unmatched [] in
  snd (update t w) = Throw undefined_read ∧
  ∃ appended,
    events NewSponsor (fst (update t w)) = events NewSponsor w ++ appended ∧
    Forall (λ r, blockNumber r ≠ 81%Z) appended.
Proof.
  apply (unmatched_NewSponsor_throws [] 50 [] (node 100 unmatched []) 100 (sponsor 81));
    [reflexivity | reflexivity | apply list_elem_of_here | reflexivity].
Defined.

(** C2 as stated fails: after a pass that cached the PositionCreated record of
    block 80 and then lost its NewSponsor request, a pass fetches the
    NewSponsor event of block 80 and no PositionCreated event at all. The
    event has no PositionCreated event of its block in the pass, yet
    [update] completes and appends its record. *)
Lemma unmatched_in_pass_completes :
  let w0 := construct [] 50 in
  let first := node 100 matched ["NewSponsor"] in
  let second := node 100 {[ "NewSponsor" := [sponsor 80] ]} [] in
  let w1 := fst (update first w0) in
  let from := firstBlockToSearch (this w1) in
  fetched second from 100 NewSponsor = [sponsor 80] ∧
  fetched second from 100 PositionCreated = [] ∧
  snd (update second w1) = Normal tt ∧
  blocks NewSponsor (fst (update second w1)) = blocks NewSponsor w1 ++ [80%Z].
Proof. vm_compute. done. Qed.

(** C3, as amended. In a run of [update] calls that all complete, with chain
    heights that never decrease and a start cursor of at most the first
    height + 1: every call makes exactly the twelve fetches over
    [[cursor, height]] and leaves the cursor at height + 1; the cursor never
    decreases; and the scanned ranges, laid end to end, are the blocks from
    the start cursor to the last height, each once. *)
Theorem scans_are_consecutive h b ops ts :
  let w := exec ops (construct h b) in
  let start := firstBlockToSearch (this w) in
  allOk ts w = true →
  nondecreasing ((start - 1)%Z :: (height <$> ts)) = true →
  Forall (λ s, ∃ now, made s = fullCalls (fromBlock s) (toBlock s) now ∧
                      cursorAfter s = (toBlock s + 1)%Z) (scans ts w) ∧
  Sorted Z.le (start :: (cursorAfter <$> scans ts w)) ∧
  flat_map (λ s, blockRange (fromBlock s) (toBlock s)) (scans ts w) =
    blockRange start (default (start - 1)%Z (last (height <$> ts))).
Proof. intros w start. apply scans_run, wf_reachable. Qed.

Lemma scans_are_consecutive_witness :
  let w := construct [] 50 in
  let ts := [node 100 matched []; node 100 matched []; node 130 matched []] in
  Forall (λ s, ∃ now, made s = fullCalls (fromBlock s) (toBlock s) now ∧
                      cursorAfter s = (toBlock s + 1)%Z) (scans ts w) ∧
  Sorted Z.le (50%Z :: (cursorAfter <$> scans ts w)) ∧
  flat_map (λ s, blockRange (fromBlock s) (toBlock s)) (scans ts w) =
    blockRange 50 130.
Proof.
  apply (scans_are_consecutive [] 50 []
           [node 100 matched []; node 100 matched []; node 130 matched []]);
    vm_compute; reflexivity.
Defined.

(** C3 as stated fails when the client is constructed with a start block
    above the chain height + 1: the first [update] completes, scans the empty
    range [[500, 100]] and moves the cursor back from 500 to 101. *)
Lemma cursor_can_move_back :
  let w := construct [] 500 in
  let t := node 100 ∅ [] in
  snd (update t w) = Normal tt ∧
  firstBlockToSearch (this w) = 500%Z ∧
  firstBlockToSearch (this (fst (update t w))) = 101%Z ∧
  asked t w = fullCalls 500 100 (str "1600000000").
Proof. vm_compute. done. Qed.

(** C4, as amended. An accessor returns the live array, not a copy: whatever
    calls follow, the sequence a caller received keeps the elements it had,
    in place, as a prefix of what the caller sees later. *)
Theorem returned_array_keeps_its_prefix h b ops k later :
  let w := exec ops (construct h b) in
  let r := getEvents k w in
  deref (heap w) r `prefix_of` deref (heap (exec later w)) r.
Proof.
  intros w r. apply grows_exec, wf_reachable.
Qed.

(** C4 as stated fails: the array returned by [getAllLiquidationEvents]
    before an [update] is empty when returned and holds two records after
    the [update]. *)
Lemma snapshot_mutated_by_update :
  let w := construct [] 50 in
  let r := getAllLiquidationEvents w in
  let w' := fst (update (node 100 twoLiquidations []) w) in
  deref (heap w) r = [] ∧
  snd (update (node 100 twoLiquidations []) w) = Normal tt ∧
  length (deref (heap w') r) = 2%nat ∧
  blockNumber <$> deref (heap w') r = [60; 80]%Z.
Proof. vm_compute. done. Qed.

(** C5, as amended. Each fetched NewSponsor event is correlated by block
    number equality against the whole [this.createEvents] array, earlier
    passes' records and this pass's alike, and takes the amounts of the first
    record that matches; the loop stops, throwing, at the first event for
    which none matches. *)
Theorem correlation_reads_whole_cache h b ops t cur :
  let w := exec ops (construct h b) in
  let from := firstBlockToSearch (this w) in
  let created := events PositionCreated w ++
    (literal (keys PositionCreated) <$> fetched t from cur PositionCreated) in
  getBlockNumber t = Normal cur →
  forallb (fetchOk t from cur) upToNewSponsor = true →
  ∃ pre post appended,
    fetched t from cur NewSponsor = pre ++ post ∧
    events NewSponsor (fst (update t w)) = events NewSponsor w ++ appended ∧
    Forall2 (correlated created) pre appended ∧
    (post = [] ∨
     ∃ event post', post = event :: post' ∧ matching created event = [] ∧
       snd (update t w) = Throw undefined_read).
Proof.
  intros w from created Hcur Hfive.
  destruct (update_view t w (wf_reachable h b ops)) as (_ & _ & _ & _ & Hr & Hv & _).
  rewrite Hr, Hv, (updateV_view _ _ _ _ _ Hcur). clear Hr Hv. fold from.
  destruct (stagesV_NewSponsor t from cur (view w) Hfive) as [Hns Hthrow].
  change (createdSeen t from cur (view w)) with created in Hthrow.
  change (appendedBy t from cur (view w) NewSponsor)
    with (correlate created (fetched t from cur NewSponsor)).1 in Hns.
  destruct (correlate_shape created (fetched t from cur NewSponsor))
    as (pre & post & Hsplit & HF & Hend).
  exists pre, post, (correlate created (fetched t from cur NewSponsor)).1.
  split_and!; [done..|].
  destruct Hend as [[-> _]|(event & post' & -> & Hm & Hc)]; [by left|right].
  exists event, post'. split_and!; [done..|].
  by apply (updateV_throw _ _ _ _ _ _ Hcur (Hthrow Hc)).
Qed.

Lemma correlation_reads_whole_cache_witness :
  let w := fst (update (node 100 matched ["NewSponsor"]) (construct [] 50)) in
  let t := node 100 {[ "NewSponsor" := [sponsor 80] ]} [] in
  let created := events PositionCreated w ++
    (literal (keys PositionCreated) <$> fetched t 50 100 PositionCreated) in
  ∃ pre post appended,
    fetched t 50 100 NewSponsor = pre ++ post ∧
    events NewSponsor (fst (update t w)) = events NewSponsor w ++ appended ∧
    Forall2 (correlated created) pre appended ∧
    (post = [] ∨
     ∃ event post', post = event :: post' ∧ matching created event = [] ∧
       snd (update t w) = Throw undefined_read).
Proof.
  apply (correlation_reads_whole_cache [] 50
           [Update (node 100 matched ["NewSponsor"])]
           (node 100 {[ "NewSponsor" := [sponsor 80] ]} []) 100);
    reflexivity.
Defined.

(** C5 as stated fails: after a pass that cached the PositionCreated record of
    block 80 and then lost its NewSponsor request, a pass whose
    PositionCreated answer is empty correlates the NewSponsor event of block
    80 with the cached record and completes. *)
Lemma correlation_uses_earlier_pass :
  let w0 := construct [] 50 in
  let first := node 100 matched ["NewSponsor"] in
  let second := node 100 {[ "NewSponsor" := [sponsor 80] ]} [] in
  let w1 := fst (update first w0) in
  let w2 := fst (update second w1) in
  snd (update first w0) = Throw (RpcError "timeout") ∧
  fetched second (firstBlockToSearch (this w1)) 100 PositionCreated = [] ∧
  fetched second (firstBlockToSearch (this w1)) 100 NewSponsor = [sponsor 80] ∧
  snd (update second w1) = Normal tt ∧
  events NewSponsor w2 =
    [newSponsorLiteral (sponsor 80) (literal (keys PositionCreated) (created 80))].
Proof. vm_compute. done. Qed.

(** C6. After [clearState] every accessor returns an empty array, the cursor
    and the timestamp are the ones before it, every fetch of the next
    [update] starts at that cursor, and if that [update] completes its calls
    are exactly the twelve fetches over [[cursor, height]]. *)
Theorem clearState_keeps_cursor h b ops :
  let w := exec ops (construct h b) in
  let w' := fst (clearState w) in
  Forall (λ getAll, deref (heap w') (getAll w') = []) accessors ∧
  firstBlockToSearch (this w') = firstBlockToSearch (this w) ∧
  getLastUpdateTime w' = getLastUpdateTime w ∧
  ∀ t,
    Forall (fromIs (firstBlockToSearch (this w))) (asked t w') ∧
    (snd (update t w') = Normal tt →
     ∃ cur now, getBlockNumber t = Normal cur ∧
       asked t w' = fullCalls (firstBlockToSearch (this w)) cur now).
Proof.
  intros w w'. split_and!; try done.
  - assert (E : ∀ k, deref (heap w') (getEvents k w') = [])
      by (intros k; apply (events_fresh (heap w))).
    unfold accessors.
    repeat first [apply Forall_nil_2 | apply Forall_cons_2].
    + exact (E NewSponsor).
    + exact (E LiquidationCreated).
    + exact (E LiquidationDisputed).
    + exact (E DisputeSettled).
    + exact (E Deposit).
    + exact (E PositionCreated).
    + exact (E Withdrawal).
    + exact (E Redeem).
    + exact (E RegularFeesPaid).
    + exact (E FinalFeesPaid).
    + exact (E LiquidationWithdrawn).
    + exact (E SettleExpiredPosition).
  - intros t. assert (Hwf : wf w') by apply wf_fresh.
    rewrite (asked_summary t w' Hwf). split.
    + apply updateV_calls_from.
    + intros Hok. destruct (update_view t w' Hwf) as (_ & _ & _ & _ & Hr & _).
      rewrite Hr in Hok. apply updateV_ok in Hok as (cur & now & Hc & _ & _ & _ & Hcalls & _).
      by exists cur, now.
Qed.

(** C9, as amended. In a history of [update], [clearState] and accessor
    calls on a new client in which every [update] completes, is answered
    with each kind's events of the requested range in ascending block order,
    and sees a chain height no lower than the [update] before it, every
    sequence is non-decreasing by block number. *)
Theorem disciplined_history_is_ordered h b ops :
  disciplined ops (construct h b) None = true →
  ∀ k, Sorted Z.le (blocks k (exec ops (construct h b))).
Proof.
  apply disciplined_ordered; [apply wf_construct|].
  apply ordered_empty. intros k. apply (events_fresh h).
Qed.

(** Three completed passes over an honest node, the last one over an empty
    range. *)
Lemma disciplined_history_is_ordered_witness :
  let ops := [Update (node 100 fourLiquidations []); Get LiquidationCreated;
              Update (node 120 fourLiquidations []); Get LiquidationCreated;
              Update (node 120 fourLiquidations [])] in
  disciplined ops (construct [] 50) None = true ∧
  Forall (λ k, Sorted Z.le (blocks k (exec ops (construct [] 50)))) order ∧
  blocks LiquidationCreated (exec ops (construct [] 50)) = [60; 80; 110]%Z.
Proof.
  cbv zeta. split; [vm_compute; reflexivity|]. split; [|vm_compute; reflexivity].
  apply Forall_forall. intros k _.
  apply (disciplined_history_is_ordered [] 50). vm_compute. reflexivity.
Defined.

(** C9 as stated fails: an [update] that fails at the Deposit request has
    already appended the liquidations of blocks 60 and 80 and leaves the
    cursor where it was, so the next [update] appends them again. *)
Lemma retried_pass_breaks_order :
  let flaky := node 100 twoLiquidations ["Deposit"] in
  let healthy := node 100 twoLiquidations [] in
  let w := exec [Update flaky; Update healthy] (construct [] 50) in
  honest flaky 50 = true ∧ honest healthy 50 = true ∧
  snd (update flaky (construct [] 50)) = Throw (RpcError "timeout") ∧
  snd (update healthy (fst (update flaky (construct [] 50)))) = Normal tt ∧
  blocks LiquidationCreated w = [60; 80; 60; 80]%Z ∧
  ¬ Sorted Z.le (blocks LiquidationCreated w).
Proof.
  split_and!; try (vm_compute; reflexivity).
  change (blocks LiquidationCreated _) with [60; 80; 60; 80]%Z.
  intros H. apply Sorted_inv in H as [H _]. apply Sorted_inv in H as [_ H].
  apply HdRel_inv in H. lia.
Qed.



(** ** Further properties of the client *)

(** The cached records of block [b], in sequence order. *)
Definition atBlock (created : list EventRecord) (b : Z) : list EventRecord :=
  List.filter (λ e, blockNumber e =? b)%Z created.

(** The two amounts a NewSponsor record shares with a PositionCreated one. *)
Definition amounts (r : EventRecord) : value * value :=
  (prop (payload r) "collateralAmount", prop (payload r) "tokenAmount").

(** [r] carries the amounts of the first record of [created] in its block. *)
Definition backed (created : list EventRecord) (r : EventRecord) : Prop :=
  ∃ c rest, atBlock created (blockNumber r) = c :: rest ∧ amounts r = amounts c.

Definition sponsorsBacked (v : View) : Prop :=
  Forall (backed (v PositionCreated)) (v NewSponsor).

Definition noReset (ops : list Op) : bool :=
  forallb (λ o, match o with ClearState => false | _ => true end) ops.

(** Every array of the client is at reference [n] or above. *)
Definition ownsFrom (n : nat) (w : World) : Prop :=
  ∀ k, (n ≤ field k (this w))%nat.

(** Two positions opened in block 80, by different sponsors and with
    different amounts. *)
Definition createdBy (who : string) (b : Z) (collateral tokens : string) : Web3Event.t :=
  Web3Event.mk "0xc0" b
    {[ "sponsor" := str who; "collateralAmount" := str collateral;
       "tokenAmount" := str tokens ]}.

Definition sponsorBy (who : string) (b : Z) : Web3Event.t :=
  Web3Event.mk "0xc0" b {[ "sponsor" := str who ]}.

Definition sharedBlock : gmap string (list Web3Event.t) :=
  {[ "PositionCreated" := [createdBy "0x01" 80 "5" "7"; createdBy "0x02" 80 "9" "11"];
     "NewSponsor" := [sponsorBy "0x01" 80; sponsorBy "0x02" 80] ]}.

(** The transport [t] with a contract whose clock read is rejected. *)
Definition clockDown (t : Transport) : Transport :=
  {| getBlockNumber := getBlockNumber t;
     getPastEvents := getPastEvents t;
     getCurrentTime := Throw (RpcError "timeout") |}.

(** The transport [t] with a node that rejects the block-number request. *)
Definition heightDown (t : Transport) : Transport :=
  {| getBlockNumber := Throw (RpcError "timeout");
     getPastEvents := getPastEvents t;
     getCurrentTime := getCurrentTime t |}.

(** The properties, besides the hash and the block number, of the record
    literal [update] pushes for a kind. *)
Definition shape (k : Kind) : list string :=
  match k with
  | NewSponsor => ["sponsor"; "collateralAmount"; "tokenAmount"]
  | _ => keys k
  end.

Definition shaped (k : Kind) (r : EventRecord) : Prop :=
  dom (payload r) = (list_to_set (shape k) : gset string).

Definition wellShaped (v : View) : Prop := ∀ k, Forall (shaped k) (v k).

(** The pass cannot get past kind [k]: its request is rejected or, for
    NewSponsor, the loop throws on an event without a PositionCreated record
    of its block. *)
Definition halts (t : Transport) (from cur : Z) (v : View) (k : Kind) : bool :=
  negb (fetchOk t from cur k)
  || match k with
     | NewSponsor =>
         negb (isOk (correlate (createdSeen t from cur v)
                       (fetched t from cur NewSponsor)).2)
     | _ => false
     end.

(** The elements of a list up to and including the first that satisfies [p]. *)
Fixpoint upToFirst {A} (p : A → bool) (l : list A) : list A :=
  match l with
  | [] => []
  | x :: l' => if p x then [x] else x :: upToFirst p l'
  end.

(** The calls of an [update], from the transport's answers. *)
Definition protocol (t : Transport) (from : Z) (v : View) : list Call :=
  match getBlockNumber t with
  | Throw _ => [GetBlockNumber]
  | Normal cur =>
      GetBlockNumber :: (request from cur <$> upToFirst (halts t from cur v) order)
      ++ (if existsb (halts t from cur v) order then []
          else match getCurrentTime t with
               | Throw _ => [GetCurrentTime]
               | Normal now => [GetCurrentTime; LoggerDebug now]
               end)
  end.

Lemma amounts_newSponsorLiteral event c :
  amounts (newSponsorLiteral event c) = amounts c.
Proof. reflexivity. Qed.

Lemma backed_app created more r : backed created r → backed (created ++ more) r.
Proof.
  intros (c & rest & Hc & Ha). exists c, (rest ++ atBlock more (blockNumber r)).
  split; [|done]. unfold atBlock in *. by rewrite Lists.List.filter_app, Hc.
Qed.

Lemma correlate_backed created evs : Forall (backed created) (correlate created evs).1.
Proof.
  induction evs as [|e evs IH]; cbn [correlate]; [constructor|].
  destruct (matching created e) as [|c cs] eqn:Hm; [constructor|].
  destruct (correlate created evs) as [recs r]. cbn [fst] in *.
  constructor; [|done]. exists c, cs. split; [exact Hm|].
  apply amounts_newSponsorLiteral.
Qed.

Lemma stageV_backed t from cur k v :
  sponsorsBacked v → sponsorsBacked (stageV t from cur k v).1.
Proof.
  intros Hv. unfold stageV.
  destruct (getPastEvents t (eventName k) from cur) as [evs|e]; [|done].
  unfold sponsorsBacked in *.
  destruct k; cbn [fst];
    try (rewrite !add_other by discriminate; exact Hv).
  - rewrite add_same, add_other by discriminate.
    eapply Forall_impl; [exact Hv|]. intros r. apply backed_app.
  - pose proof (correlate_backed (v PositionCreated) evs) as Hc.
    destruct (correlate (v PositionCreated) evs) as [recs r]. cbn [fst] in *.
    rewrite add_same, add_other by discriminate.
    apply Forall_app. by split.
Qed.

Lemma stagesV_backed t from cur ks : ∀ v,
  sponsorsBacked v → sponsorsBacked (stagesV t from cur ks v).1.1.
Proof.
  induction ks as [|k ks IH]; intros v Hv; cbn [stagesV]; [done|].
  pose proof (stageV_backed t from cur k v Hv) as H1.
  destruct (stageV t from cur k v) as [v1 [[]|e]]; cbn [fst] in *; [|done].
  specialize (IH v1 H1). by destruct (stagesV t from cur ks v1) as [[v2 cs] r].
Qed.

Lemma updateV_backed t from stamp v :
  sponsorsBacked v → sponsorsBacked (s_view (updateV t from stamp v)).
Proof.
  intros Hv. unfold updateV. destruct (getBlockNumber t) as [cur|e]; [|done].
  pose proof (stagesV_backed t from cur order v Hv) as H.
  destruct (stagesV t from cur order v) as [[v' cs] [[]|e]]; cbn [fst] in *;
    [destruct (getCurrentTime t)|]; done.
Qed.

Lemma sponsorsBacked_ext (v v' : View) :
  (∀ k, v' k = v k) → sponsorsBacked v → sponsorsBacked v'.
Proof. intros E. unfold sponsorsBacked. by rewrite !E. Qed.

Lemma backed_step w o : wf w → sponsorsBacked (view w) → sponsorsBacked (view (step w o)).
Proof.
  intros Hwf Hb. destruct o as [t| |k]; cbn [step]; [| |done].
  - destruct (update_view t w Hwf) as (_ & _ & _ & _ & _ & Hv & _).
    eapply sponsorsBacked_ext; [exact Hv|]. by apply updateV_backed.
  - assert (E : events NewSponsor (clearState w).1 = [])
      by apply (events_fresh (heap w)).
    unfold sponsorsBacked, view. rewrite E. constructor.
Qed.

Lemma backed_exec ops : ∀ w, wf w → sponsorsBacked (view w) → sponsorsBacked (view (exec ops w)).
Proof.
  induction ops as [|o ops IH]; intros w Hwf Hb; [done|].
  apply IH; [by apply wf_step|by apply backed_step].
Qed.

Lemma backed_reachable h b ops : sponsorsBacked (view (exec ops (construct h b))).
Proof.
  apply backed_exec; [apply wf_construct|].
  assert (E : events NewSponsor (construct h b) = []) by apply (events_fresh h).
  unfold sponsorsBacked, view. rewrite E. constructor.
Qed.

(** X1. In every state reached from construction, each cached NewSponsor
    record has a cached PositionCreated record of its block number, and
    carries the collateral and token amounts of the first such record in
    sequence order. *)
Theorem every_sponsor_record_is_backed h b ops :
  let w := exec ops (construct h b) in
  Forall (backed (events PositionCreated w)) (events NewSponsor w).
Proof. apply backed_reachable. Qed.

(** X2. Two cached NewSponsor records of the same block carry the same
    amounts, whoever their sponsors are: the correlation looks at the block
    number only. *)
Theorem same_block_sponsors_share_amounts h b ops r1 r2 :
  let w := exec ops (construct h b) in
  r1 ∈ events NewSponsor w → r2 ∈ events NewSponsor w →
  blockNumber r1 = blockNumber r2 →
  amounts r1 = amounts r2.
Proof.
  intros w H1 H2 Hb. pose proof (backed_reachable h b ops) as HF.
  unfold sponsorsBacked, view in HF. fold w in HF. rewrite Forall_forall in HF.
  destruct (HF _ H1) as (c1 & rest1 & Hc1 & ->).
  destruct (HF _ H2) as (c2 & rest2 & Hc2 & ->).
  rewrite Hb in Hc1. rewrite Hc1 in Hc2. by injection Hc2 as -> _.
Qed.

Lemma same_block_sponsors_share_amounts_witness :
  let w := exec [Update (node 100 sharedBlock [])] (construct [] 50) in
  (λ r, prop (payload r) "sponsor") <$> events NewSponsor w = [str "0x01"; str "0x02"] ∧
  Forall (λ r1, Forall (λ r2, amounts r1 = amounts r2) (events NewSponsor w))
         (events NewSponsor w).
Proof.
  cbv zeta. split; [vm_compute; reflexivity|].
  assert (B : ∀ r, r ∈ events NewSponsor
                (exec [Update (node 100 sharedBlock [])] (construct [] 50)) →
              blockNumber r = 80%Z).
  { intros r Hr. apply (list_elem_of_fmap_2 blockNumber) in Hr.
    assert (E : blockNumber <$> events NewSponsor
                  (exec [Update (node 100 sharedBlock [])] (construct [] 50))
                = [80; 80]%Z) by (vm_compute; reflexivity).
    rewrite E in Hr. clear E.
    apply elem_of_cons in Hr as [->|Hr]; [reflexivity|].
    apply elem_of_cons in Hr as [->|Hr]; [reflexivity|].
    by apply elem_of_nil in Hr. }
  apply Forall_forall. intros r1 H1. apply Forall_forall. intros r2 H2.
  apply (same_block_sponsors_share_amounts [] 50 [Update (node 100 sharedBlock [])]);
    [exact H1 | exact H2 | by rewrite (B r1 H1), (B r2 H2)].
Defined.

Lemma ingest_frame t name fld mk cur w (r : nat) :
  r ≠ fld (this w) →
  heap (ingest t name fld mk cur w).1 !! r = heap w !! r.
Proof.
  intros Hr. rewrite ingest_run. cbn zeta.
  destruct (getPastEvents t name _ cur) as [evs|e]; cbn [fst heap appendTo logged];
    [|done].
  by apply list_lookup_alter_ne.
Qed.

Lemma ingestNewSponsor_frame t cur w (r : nat) :
  newSponsorEvents (this w) ≠ createEvents (this w) →
  r ≠ newSponsorEvents (this w) →
  heap (ingestNewSponsor t cur w).1 !! r = heap w !! r.
Proof.
  intros Hne Hr. unfold ingestNewSponsor. rewrite bind_run.
  unfold emp_getPastEvents. rewrite bind_run. unfold getThis. rewrite call_run.
  destruct (getPastEvents t "NewSponsor" _ cur) as [evs|e]; [|done].
  rewrite newSponsor_loop by done.
  destruct (correlate _ evs) as [recs res]. cbn [fst heap appendTo logged this].
  by apply list_lookup_alter_ne.
Qed.

Lemma stage_frame t cur k w (r : nat) :
  wf w → (∀ j, r ≠ field j (this w)) →
  heap (stage t cur k w).1 !! r = heap w !! r.
Proof.
  intros Hwf Hr.
  destruct k; cbn [stage];
    first [ apply ingestNewSponsor_frame;
            [intros E; by apply (proj2 Hwf NewSponsor PositionCreated) in E
            |apply (Hr NewSponsor)]
          | apply ingest_frame;
            first [ apply (Hr LiquidationCreated) | apply (Hr LiquidationDisputed)
                  | apply (Hr DisputeSettled) | apply (Hr PositionCreated)
                  | apply (Hr Deposit) | apply (Hr Withdrawal) | apply (Hr Redeem)
                  | apply (Hr RegularFeesPaid) | apply (Hr FinalFeesPaid)
                  | apply (Hr LiquidationWithdrawn)
                  | apply (Hr SettleExpiredPosition) ] ].
Qed.

Lemma stages_frame t cur ks (r : nat) : ∀ w,
  wf w → (∀ j, r ≠ field j (this w)) →
  heap (forOf ks (stage t cur) w).1 !! r = heap w !! r.
Proof.
  induction ks as [|k ks IH]; intros w Hwf Hr; [done|].
  cbn [forOf]. rewrite bind_run.
  pose proof (stage_frame t cur k w r Hwf Hr) as Hk.
  destruct (stage_run t (firstBlockToSearch (this w)) cur k w (view w) Hwf eq_refl
              (λ _, eq_refl)) as (T1 & G1 & _).
  destruct (stage t cur k w) as [w1 [[]|e]]; cbn [fst] in *; [|done].
  rewrite IH; [done| |by rewrite T1].
  eapply wf_mono; [exact Hwf|done|apply G1].
Qed.

Lemma update_frame t w (r : nat) :
  wf w → (∀ j, r ≠ field j (this w)) →
  heap (update t w).1 !! r = heap w !! r.
Proof.
  intros Hwf Hr. rewrite update_staged. unfold staged. rewrite bind_run.
  unfold web3_eth_getBlockNumber. rewrite call_run.
  destruct (getBlockNumber t) as [cur|e]; [|done]. cbv beta iota.
  rewrite bind_run.
  pose proof (stages_frame t cur order r (logged GetBlockNumber w) Hwf Hr) as Hs.
  destruct (forOf order (stage t cur) (logged GetBlockNumber w)) as [w1 [[]|e]];
    cbn [fst] in *; [|done].
  rewrite finish_run. cbv zeta. by destruct (getCurrentTime t).
Qed.

Lemma frame_exec n ops : ∀ w,
  wf w → ownsFrom n w → (n ≤ length (heap w))%nat →
  ownsFrom n (exec ops w) ∧ (n ≤ length (heap (exec ops w)))%nat ∧
  ∀ r, (r < n)%nat → heap (exec ops w) !! r = heap w !! r.
Proof.
  induction ops as [|o ops IH]; intros w Hwf Hown Hlen; [done|].
  cbn [exec fold_left]. fold (exec ops (step w o)).
  assert (Hstep : ownsFrom n (step w o) ∧ (n ≤ length (heap (step w o)))%nat ∧
                  ∀ r, (r < n)%nat → heap (step w o) !! r = heap w !! r).
  { destruct o as [t| |k]; cbn [step]; [| |done].
    - destruct (update_view t w Hwf) as (_ & Hrefs & [Hl _] & _).
      split_and!.
      + intros k. specialize (Hrefs k). unfold getEvents in Hrefs.
        rewrite Hrefs. apply Hown.
      + lia.
      + intros r Hr. apply update_frame; [done|].
        intros j E. specialize (Hown j). lia.
    - split_and!; cbn [clearState fst heap this].
      + intros k. destruct k; cbn; lia.
      + rewrite length_app. lia.
      + intros r Hr. apply lookup_app_l. lia. }
  destruct Hstep as (Hown1 & Hlen1 & Hsame1).
  destruct (IH (step w o) (wf_step w o Hwf) Hown1 Hlen1) as (Hown2 & Hlen2 & Hsame2).
  split_and!; [done..|]. intros r Hr. by rewrite Hsame2, Hsame1.
Qed.

(** X3. Whatever calls are made on a client, the arrays that were in the heap
    when it was constructed (those of another client, say) are left as they
    were. *)
Theorem earlier_arrays_are_untouched h b ops :
  take (length h) (heap (exec ops (construct h b))) = h.
Proof.
  destruct (frame_exec (length h) ops (construct h b)) as (_ & Hlen & Hsame).
  - apply wf_construct.
  - intros k. destruct k; cbn; lia.
  - cbn. rewrite length_app. lia.
  - apply list_eq. intros r. destruct (decide (r < length h)%nat) as [Hr|Hr].
    + rewrite lookup_take_lt by done. rewrite (Hsame r Hr).
      cbn. apply lookup_app_l. done.
    + rewrite lookup_take_ge by lia. symmetry. apply lookup_ge_None. lia.
Qed.

(** X4. An array an accessor returned before [clearState] is no longer the
    client's: no later call changes it. *)
Theorem cleared_arrays_are_detached h b ops k later :
  let w := exec ops (construct h b) in
  let r := getEvents k w in
  heap (exec later (clearState w).1) !! r = heap w !! r.
Proof.
  intros w r. assert (Hwf : wf w) by apply wf_reachable.
  destruct (frame_exec (length (heap w)) later (clearState w).1) as (_ & _ & Hsame).
  - apply wf_fresh.
  - intros j. destruct j; cbn; lia.
  - cbn. rewrite length_app. lia.
  - rewrite Hsame by apply Hwf. cbn. apply lookup_app_l, Hwf.
Qed.

Lemma getEvents_noReset later : ∀ w,
  wf w → noReset later = true → ∀ k, getEvents k (exec later w) = getEvents k w.
Proof.
  induction later as [|o later IH]; intros w Hwf Hno k; [done|].
  cbn [noReset forallb] in Hno. apply andb_true_iff in Hno as [Ho Hno].
  cbn [exec fold_left]. fold (exec later (step w o)).
  rewrite (IH (step w o)); [|by apply wf_step|done].
  destruct o as [t| |j]; [|done|done]. cbn [step].
  apply (update_view t w Hwf).
Qed.

(** X5. As long as [clearState] is not called, an accessor keeps returning
    the same array, so a caller that holds it sees the sequence as it is
    now. *)
Theorem accessor_is_stable_until_reset h b ops later k :
  let w := exec ops (construct h b) in
  noReset later = true →
  getEvents k (exec later w) = getEvents k w ∧
  deref (heap (exec later w)) (getEvents k w) = events k (exec later w).
Proof.
  intros w Hno.
  pose proof (getEvents_noReset later w (wf_reachable h b ops) Hno k) as E.
  split; [done|]. unfold events. by rewrite E.
Qed.

Lemma accessor_is_stable_until_reset_witness :
  let w := exec [Update (node 100 fourLiquidations [])] (construct [] 50) in
  let later := [Update (node 130 fourLiquidations []); Get Deposit] in
  getEvents LiquidationCreated (exec later w) = getEvents LiquidationCreated w ∧
  deref (heap (exec later w)) (getEvents LiquidationCreated w)
    = events LiquidationCreated (exec later w).
Proof.
  apply (accessor_is_stable_until_reset [] 50 [Update (node 100 fourLiquidations [])]
           [Update (node 130 fourLiquidations []); Get Deposit] LiquidationCreated).
  reflexivity.
Defined.

Lemma literal_hashes keys (evs : list Web3Event.t) :
  transactionHash <$> (literal keys <$> evs) = Web3Event.transactionHash <$> evs.
Proof. rewrite <- list_fmap_compose. done. Qed.

Lemma correlate_ok_hashes created evs :
  (correlate created evs).2 = Normal tt →
  transactionHash <$> (correlate created evs).1 = Web3Event.transactionHash <$> evs.
Proof.
  induction evs as [|e evs IH]; cbn [correlate]; [done|].
  destruct (matching created e) as [|c cs]; [done|].
  destruct (correlate created evs) as [recs r]. cbn [fst snd] in *.
  intros Hr. cbn. f_equal. by apply IH.
Qed.

Lemma appendedBy_hashes t from cur v k :
  (correlate (createdSeen t from cur v) (fetched t from cur NewSponsor)).2 = Normal tt →
  transactionHash <$> appendedBy t from cur v k
  = Web3Event.transactionHash <$> fetched t from cur k.
Proof.
  intros Hc. destruct k; cbn [appendedBy]; try apply literal_hashes.
  by apply correlate_ok_hashes.
Qed.

(** X6. An [update] that completes appends to every kind, NewSponsor
    included, one record per fetched event, in the order the transport
    returned them, with the event's block number and transaction hash. *)
Theorem completed_update_appends_in_transport_order h b ops t :
  let w := exec ops (construct h b) in
  let w' := fst (update t w) in
  let from := firstBlockToSearch (this w) in
  snd (update t w) = Normal tt →
  ∀ k, blocks k w' = blocks k w ++ (Web3Event.blockNumber <$> fetched t from (height t) k) ∧
       transactionHash <$> events k w' =
         (transactionHash <$> events k w)
         ++ (Web3Event.transactionHash <$> fetched t from (height t) k).
Proof.
  intros w w' from Hok k.
  destruct (update_ok t w (wf_reachable h b ops) Hok)
    as (cur & now & Hcur & _ & _ & Hcor & Happ & _).
  assert (Hh : height t = cur) by (unfold height; by rewrite Hcur).
  rewrite Hh. unfold blocks, w'. rewrite Happ, !fmap_app.
  by rewrite (appendedBy_blocks _ _ _ _ _ Hcor), (appendedBy_hashes _ _ _ _ _ Hcor).
Qed.

Lemma completed_update_appends_in_transport_order_witness :
  let w := construct [] 50 in
  let t := node 100 matched [] in
  snd (update t w) = Normal tt ∧
  Forall (λ k,
    blocks k (fst (update t w)) =
      blocks k w ++ (Web3Event.blockNumber <$> fetched t 50 100 k) ∧
    transactionHash <$> events k (fst (update t w)) =
      (transactionHash <$> events k w)
      ++ (Web3Event.transactionHash <$> fetched t 50 100 k)) order.
Proof.
  cbv zeta. split; [vm_compute; reflexivity|].
  apply Forall_forall. intros k _.
  apply (completed_update_appends_in_transport_order [] 50 [] (node 100 matched [])).
  vm_compute. reflexivity.
Defined.

Lemma literal_shaped k event : k ≠ NewSponsor → shaped k (literal (keys k) event).
Proof.
  intros Hk. unfold shaped, literal. cbn [payload].
  rewrite dom_list_to_map_L. f_equal.
  rewrite <- list_fmap_compose. 
  replace (shape k) with (keys k) by by destruct k.
  induction (keys k) as [|x l IH]; [done|]. cbn. by rewrite IH.
Qed.

Lemma newSponsorLiteral_shaped event c : shaped NewSponsor (newSponsorLiteral event c).
Proof.
  unfold shaped, newSponsorLiteral. cbn [payload shape list_to_set].
  rewrite !dom_insert_L, dom_singleton_L. set_solver.
Qed.

Lemma correlate_shaped created evs :
  Forall (shaped NewSponsor) (correlate created evs).1.
Proof.
  induction evs as [|e evs IH]; cbn [correlate]; [constructor|].
  destruct (matching created e) as [|c cs]; [constructor|].
  destruct (correlate created evs) as [recs r]. cbn [fst] in *.
  constructor; [apply newSponsorLiteral_shaped|done].
Qed.

Lemma stageV_shaped t from cur k v : wellShaped v → wellShaped (stageV t from cur k v).1.
Proof.
  intros Hv. unfold stageV.
  destruct (getPastEvents t (eventName k) from cur) as [evs|e]; [|done].
  assert (Hplain : k ≠ NewSponsor →
            wellShaped (add k (literal (keys k) <$> evs) v)).
  { intros Hk j. unfold add. destruct (decide (j = k)) as [->|]; [|apply Hv].
    apply Forall_app. split; [apply Hv|].
    apply Forall_fmap, Forall_forall. intros e _. by apply literal_shaped. }
  destruct k; try (apply Hplain; discriminate).
  pose proof (correlate_shaped (v PositionCreated) evs) as Hc.
  destruct (correlate (v PositionCreated) evs) as [recs r]. cbn [fst] in *.
  intros j. unfold add. destruct (decide (j = NewSponsor)) as [->|]; [|apply Hv].
  apply Forall_app. split; [apply Hv|done].
Qed.

Lemma stagesV_shaped t from cur ks : ∀ v,
  wellShaped v → wellShaped (stagesV t from cur ks v).1.1.
Proof.
  induction ks as [|k ks IH]; intros v Hv; cbn [stagesV]; [done|].
  pose proof (stageV_shaped t from cur k v Hv) as H1.
  destruct (stageV t from cur k v) as [v1 [[]|e]]; cbn [fst] in *; [|done].
  specialize (IH v1 H1). by destruct (stagesV t from cur ks v1) as [[v2 cs] r].
Qed.

Lemma updateV_shaped t from stamp v :
  wellShaped v → wellShaped (s_view (updateV t from stamp v)).
Proof.
  intros Hv. unfold updateV. destruct (getBlockNumber t) as [cur|e]; [|done].
  pose proof (stagesV_shaped t from cur order v Hv) as H.
  destruct (stagesV t from cur order v) as [[v' cs] [[]|e]]; cbn [fst] in *;
    [destruct (getCurrentTime t)|]; done.
Qed.

Lemma shaped_step w o : wf w → wellShaped (view w) → wellShaped (view (step w o)).
Proof.
  intros Hwf Hs. destruct o as [t| |k]; cbn [step]; [| |done].
  - destruct (update_view t w Hwf) as (_ & _ & _ & _ & _ & Hv & _).
    intros j. unfold view. rewrite Hv. by apply updateV_shaped.
  - intros j. unfold view.
    assert (E : events j (clearState w).1 = []) by apply (events_fresh (heap w)).
    rewrite E. constructor.
Qed.

Lemma shaped_exec ops : ∀ w, wf w → wellShaped (view w) → wellShaped (view (exec ops w)).
Proof.
  induction ops as [|o ops IH]; intros w Hwf Hs; [done|].
  apply IH; [by apply wf_step|by apply shaped_step].
Qed.

(** X7. In every state reached from construction, each cached record of a
    kind has exactly the properties that kind's literal names, besides the
    hash and the block number: none is missing, even when the event lacked
    the value, and nothing else of the event is kept. *)
Theorem cached_records_have_their_kinds_keys h b ops k :
  let w := exec ops (construct h b) in
  Forall (λ r, dom (payload r) = (list_to_set (shape k) : gset string)) (events k w).
Proof.
  intros w. apply (shaped_exec ops (construct h b)); [apply wf_construct|].
  intros j. unfold view.
  assert (E : events j (construct h b) = []) by apply (events_fresh h).
  rewrite E. constructor.
Qed.

Lemma updateV_stamp t from stamp v :
  (s_result (updateV t from stamp v) = Normal tt ∧
   getCurrentTime t = Normal (s_stamp (updateV t from stamp v))) ∨
  (isOk (s_result (updateV t from stamp v)) = false ∧
   s_stamp (updateV t from stamp v) = stamp).
Proof.
  unfold updateV. destruct (getBlockNumber t) as [cur|e]; [|by right].
  destruct (stagesV t from cur order v) as [[v' cs] [[]|e]]; [|by right].
  destruct (getCurrentTime t) as [now|e]; [by left|by right].
Qed.

(** X8. [getLastUpdateTime] changes only when [update] completes, and is
    then what the contract's clock answered; an [update] that throws leaves
    it as it was. *)
Theorem timestamp_moves_only_on_completion h b ops t :
  let w := exec ops (construct h b) in
  let w' := fst (update t w) in
  (snd (update t w) = Normal tt ∧ getCurrentTime t = Normal (getLastUpdateTime w')) ∨
  (isOk (snd (update t w)) = false ∧ getLastUpdateTime w' = getLastUpdateTime w).
Proof.
  intros w w'.
  destruct (update_view t w (wf_reachable h b ops)) as (_ & _ & _ & _ & Hr & _ & _ & Hs).
  unfold getLastUpdateTime, w'. rewrite Hr, Hs. apply updateV_stamp.
Qed.

Lemma stagesV_app t from cur ks1 : ∀ ks2 v,
  stagesV t from cur (ks1 ++ ks2) v =
  match stagesV t from cur ks1 v with
  | (v1, cs1, Normal _) =>
      let '(v2, cs2, r) := stagesV t from cur ks2 v1 in (v2, cs1 ++ cs2, r)
  | (v1, cs1, Throw e) => (v1, cs1, Throw e)
  end.
Proof.
  induction ks1 as [|k ks1 IH]; intros ks2 v; cbn [app stagesV].
  - by destruct (stagesV t from cur ks2 v) as [[v2 cs2] r].
  - destruct (stageV t from cur k v) as [v1 [[]|e]]; [|done].
    rewrite IH. destruct (stagesV t from cur ks1 v1) as [[v2 cs1] [[]|e]]; [|done].
    by destruct (stagesV t from cur ks2 v2) as [[v3 cs2] r].
Qed.

Ltac reduce_add :=
  repeat first [rewrite add_same | rewrite add_other by discriminate].

(** The first [n] blocks of [update], when their fetches and the
    correlation (if among them) succeed. *)
Lemma stagesV_prefix t from cur v n :
  forallb (fetchOk t from cur) (take n order) = true →
  ((4 < n)%nat →
   (correlate (createdSeen t from cur v) (fetched t from cur NewSponsor)).2 = Normal tt) →
  (stagesV t from cur (take n order) v).2 = Normal tt ∧
  (stagesV t from cur (take n order) v).1.2 = request from cur <$> take n order ∧
  ∀ j, (stagesV t from cur (take n order) v).1.1 j =
       v j ++ (if bool_decide (j ∈ take n order) then appendedBy t from cur v j else []).
Proof.
  intros Hok Hcor.
  assert (Hn : ∃ m, (m ≤ 12)%nat ∧ take n order = take m order).
  { destruct (decide (n ≤ 12)%nat); [by exists n|].
    exists 12%nat. split; [lia|]. rewrite !take_ge; [done|cbn; lia..]. }
  destruct Hn as (m & Hm & Em).
  assert (Hcor' : (4 < m)%nat →
    (correlate (createdSeen t from cur v) (fetched t from cur NewSponsor)).2 = Normal tt).
  { intros H. apply Hcor. destruct (decide (n ≤ 12)%nat) as [Hle|Hgt]; [|lia].
    assert (length (take n order) = length (take m order)) as E by by rewrite Em.
    rewrite !length_take in E. cbn in E. lia. }
  rewrite Em in *. clear Hcor Em n.
  do 13 (destruct m as [|m]; [
    cbn [take order forallb] in *; rewrite ?andb_true_iff in Hok;
    repeat match goal with H : _ ∧ _ |- _ => destruct H end;
    cbn [stagesV];
    rewrite ?stageV_plain by done;
    try (rewrite stageV_NewSponsor by done; reduce_add;
         fold (createdSeen t from cur v);
         pose proof (Hcor' ltac:(lia)) as Hc;
         destruct (correlate (createdSeen t from cur v) _) as [recs rr] eqn:Hcq;
         cbn [snd] in Hc; subst rr);
    rewrite ?stageV_plain by done;
    cbn [fst snd]; split_and!; [done..|];
    intros j; unfold appendedBy; rewrite ?Hcq;
    destruct j; reduce_add; cbn; rewrite ?app_nil_r; done |]).
  lia.
Qed.

Lemma stagesV_stops t from cur ks1 k ks2 v e :
  (stagesV t from cur ks1 v).2 = Normal tt →
  getPastEvents t (eventName k) from cur = Throw e →
  stagesV t from cur (ks1 ++ k :: ks2) v =
  ((stagesV t from cur ks1 v).1.1,
   (stagesV t from cur ks1 v).1.2 ++ [request from cur k], Throw e).
Proof.
  intros Hok Hfail. rewrite stagesV_app.
  destruct (stagesV t from cur ks1 v) as [[v1 cs1] r1]. cbn [fst snd] in *.
  subst r1. cbn [stagesV]. unfold stageV. by rewrite Hfail.
Qed.

Lemma order_lookup n k : order !! n = Some k → (n < 12)%nat.
Proof. intros H. apply lookup_lt_Some in H. cbn in H. done. Qed.

(** X9. When the request for the kind at position [n] of the fetch order is
    rejected, [update] throws that error after [n + 1] requests; the kinds
    fetched before it keep their new records, every other kind, the cursor
    and the timestamp are unchanged. *)
Theorem rejected_fetch_keeps_earlier_kinds h b ops t cur n k e :
  let w := exec ops (construct h b) in
  let w' := fst (update t w) in
  let from := firstBlockToSearch (this w) in
  getBlockNumber t = Normal cur →
  order !! n = Some k →
  forallb (fetchOk t from cur) (take n order) = true →
  ((4 < n)%nat →
   (correlate (createdSeen t from cur (view w)) (fetched t from cur NewSponsor)).2
     = Normal tt) →
  getPastEvents t (eventName k) from cur = Throw e →
  snd (update t w) = Throw e ∧
  (∀ j, events j w' =
        events j w ++ (if bool_decide (j ∈ take n order)
                       then appendedBy t from cur (view w) j else [])) ∧
  firstBlockToSearch (this w') = from ∧
  getLastUpdateTime w' = getLastUpdateTime w ∧
  asked t w = GetBlockNumber :: (request from cur <$> take (S n) order).
Proof.
  intros w w' from Hcur Hk Hok Hcor Hfail.
  assert (Hwf : wf w) by apply wf_reachable.
  rewrite (asked_summary t w Hwf).
  destruct (update_view t w Hwf) as (_ & _ & _ & _ & Hr & Hv & Hc & Hs).
  fold w' in Hv, Hc, Hs. fold from in Hr, Hv, Hc, Hs |- *.
  destruct (stagesV_prefix t from cur (view w) n Hok Hcor) as (P1 & P2 & P3).
  assert (E : stagesV t from cur order (view w) =
    ((stagesV t from cur (take n order) (view w)).1.1,
     (stagesV t from cur (take n order) (view w)).1.2 ++ [request from cur k],
     Throw e)).
  { rewrite <- (take_drop_middle order n k Hk) at 1. by apply stagesV_stops. }
  assert (Hst : (stagesV t from cur order (view w)).2 = Throw e ∧
                (stagesV t from cur order (view w)).1.2
                  = request from cur <$> take (S n) order ∧
                ∀ j, (stagesV t from cur order (view w)).1.1 j
                     = (stagesV t from cur (take n order) (view w)).1.1 j).
  { rewrite E. cbn [fst snd]. split_and!; [done| |done].
    by rewrite P2, (take_S_r _ _ _ Hk), fmap_app. }
  destruct Hst as (S1 & S2 & S3).
  destruct (updateV_throw t from (lastUpdateTimestamp (this w)) (view w) cur e Hcur S1)
    as (R1 & R2 & R3).
  split_and!.
  - by rewrite Hr.
  - intros j. by rewrite Hv, (updateV_view _ _ _ _ _ Hcur), S3, P3.
  - by rewrite Hc.
  - unfold getLastUpdateTime. by rewrite Hs.
  - unfold updateV. rewrite Hcur.
    destruct (stagesV t from cur order (view w)) as [[v1 cs1] r1].
    cbn [fst snd] in *. subst. done.
Qed.

Lemma rejected_fetch_keeps_earlier_kinds_witness :
  let w := construct [] 50 in
  let t := node 100 matched ["Deposit"] in
  let w' := fst (update t w) in
  snd (update t w) = Throw (RpcError "timeout") ∧
  (∀ j, events j w' =
        events j w ++ (if bool_decide (j ∈ take 5 order)
                       then appendedBy t 50 100 (view w) j else [])) ∧
  firstBlockToSearch (this w') = 50%Z ∧
  getLastUpdateTime w' = getLastUpdateTime w ∧
  asked t w = GetBlockNumber :: (request 50 100 <$> take 6 order).
Proof.
  apply (rejected_fetch_keeps_earlier_kinds [] 50 [] (node 100 matched ["Deposit"])
           100 5 Deposit (RpcError "timeout"));
    [reflexivity | reflexivity | vm_compute; reflexivity
    | intros _; vm_compute; reflexivity | reflexivity].
Defined.

(** X10. When all twelve kinds are fetched and correlated but the clock read
    is rejected, [update] throws although the pass is complete: every kind
    has its new records and the cursor is at height + 1, so the next
    [update] does not fetch these blocks again; only the timestamp is
    stale. *)
Theorem clock_failure_keeps_the_pass h b ops t cur e :
  let w := exec ops (construct h b) in
  let w' := fst (update t w) in
  let from := firstBlockToSearch (this w) in
  getBlockNumber t = Normal cur →
  forallb (fetchOk t from cur) order = true →
  (correlate (createdSeen t from cur (view w)) (fetched t from cur NewSponsor)).2
    = Normal tt →
  getCurrentTime t = Throw e →
  snd (update t w) = Throw e ∧
  (∀ j, events j w' = events j w ++ appendedBy t from cur (view w) j) ∧
  firstBlockToSearch (this w') = (cur + 1)%Z ∧
  getLastUpdateTime w' = getLastUpdateTime w.
Proof.
  intros w w' from Hcur Hok Hcor Hclock.
  assert (Hwf : wf w) by apply wf_reachable.
  destruct (update_view t w Hwf) as (_ & _ & _ & _ & Hr & Hv & Hc & Hs).
  fold w' in Hv, Hc, Hs. fold from in Hr, Hv, Hc, Hs.
  destruct (stagesV_prefix t from cur (view w) 12 Hok (λ _, Hcor)) as (P1 & _ & P3).
  change (take 12 order) with order in P1, P3.
  unfold getLastUpdateTime. rewrite Hr, Hc, Hs.
  assert (Hview : ∀ j, events j w' = events j w ++ appendedBy t from cur (view w) j).
  { intros j. rewrite Hv, (updateV_view _ _ _ _ _ Hcur), P3. by destruct j. }
  clear Hv. unfold updateV. rewrite Hcur.
  destruct (stagesV t from cur order (view w)) as [[v1 cs1] r1].
  cbn [fst snd] in *. subst r1. rewrite Hclock.
  cbn [s_result s_view s_cursor s_stamp]. by split_and!.
Qed.

Lemma clock_failure_keeps_the_pass_witness :
  let w := construct [] 50 in
  let t := clockDown (node 100 matched []) in
  let w' := fst (update t w) in
  snd (update t w) = Throw (RpcError "timeout") ∧
  (∀ j, events j w' = events j w ++ appendedBy t 50 100 (view w) j) ∧
  firstBlockToSearch (this w') = 101%Z ∧
  getLastUpdateTime w' = getLastUpdateTime w.
Proof.
  apply (clock_failure_keeps_the_pass [] 50 [] (clockDown (node 100 matched []))
           100 (RpcError "timeout"));
    [reflexivity | vm_compute; reflexivity | vm_compute; reflexivity | reflexivity].
Defined.

Lemma upToFirst_spec {A} (p : A → bool) (l : list A) :
  (existsb p l = false ∧ upToFirst p l = l ∧ forallb (λ x, negb (p x)) l = true) ∨
  (∃ n x, l !! n = Some x ∧ p x = true ∧ existsb p l = true ∧
          forallb (λ x, negb (p x)) (take n l) = true ∧
          upToFirst p l = take (S n) l).
Proof.
  induction l as [|x l IH]; [by left|]. cbn [upToFirst existsb forallb].
  destruct (p x) eqn:Hx.
  - right. exists 0%nat, x. by split_and!.
  - destruct IH as [(H1 & H2 & H3)|(n & y & H1 & H2 & H3 & H4 & H5)].
    + left. cbn. by rewrite H1, H2, H3.
    + right. exists (S n), y. cbn [negb andb orb]. split_and!; try done.
      * cbn. by rewrite Hx.
      * cbn [take]. by rewrite H5.
Qed.

Lemma not_halts_prefix t from cur v n :
  forallb (λ k, negb (halts t from cur v k)) (take n order) = true →
  forallb (fetchOk t from cur) (take n order) = true ∧
  ((4 < n)%nat →
   (correlate (createdSeen t from cur v) (fetched t from cur NewSponsor)).2 = Normal tt).
Proof.
  intros H. rewrite forallb_forall in H. split.
  - apply forallb_forall. intros k Hk. specialize (H k Hk).
    unfold halts in H. apply negb_true_iff, orb_false_iff in H as [H _].
    by apply negb_false_iff in H.
  - intros Hn.
    assert (Hin : In NewSponsor (take n order)).
    { apply list_elem_of_In. apply (list_elem_of_lookup_2 _ 4%nat).
      rewrite lookup_take_lt by done. done. }
    specialize (H _ Hin). unfold halts in H.
    apply negb_true_iff, orb_false_iff in H as [_ H]. apply negb_false_iff in H.
    destruct (correlate _ _).2 as [[]|]; done.
Qed.

(** X11. The calls of every [update] are read off the transport's answers:
    the block number first; if it is rejected, nothing more. Otherwise one
    request per kind in the fixed order, each over the range from the cursor
    to that height, up to and including the first kind whose request is
    rejected or, for NewSponsor, whose correlation throws; and only when no
    kind stops the pass, the clock read, followed by the debug record when
    the clock answers. *)
Theorem update_call_protocol h b ops t :
  let w := exec ops (construct h b) in
  asked t w = protocol t (firstBlockToSearch (this w)) (view w).
Proof.
  intros w. rewrite (asked_summary t w (wf_reachable h b ops)).
  set (from := firstBlockToSearch (this w)). set (v := view w).
  unfold updateV, protocol. destruct (getBlockNumber t) as [cur|e]; [|done].
  destruct (upToFirst_spec (halts t from cur v) order)
    as [(Hnone & -> & Hall)|(n & k & Hk & Hhalt & -> & Hall & ->)].
  - rewrite Hnone.
    destruct (not_halts_prefix t from cur v 12 Hall) as [Hok Hcor].
    destruct (stagesV_prefix t from cur v 12 Hok Hcor) as (Hr & Hc & _).
    change (take 12 order) with order in Hr, Hc.
    destruct (stagesV t from cur order v) as [[v1 cs] r]. cbn [fst snd] in *.
    subst r cs. by destruct (getCurrentTime t).
  - rewrite app_nil_r.
    destruct (not_halts_prefix t from cur v n Hall) as [Hok Hcor].
    assert (Hn : (n < 12)%nat) by by apply order_lookup in Hk.
    unfold halts in Hhalt. apply orb_true_iff in Hhalt as [Hf|Hc].
    + apply negb_true_iff in Hf.
      assert (∃ e, getPastEvents t (eventName k) from cur = Throw e) as [e He].
      { unfold fetchOk in Hf. destruct (getPastEvents _ _ _ _); [done|eauto]. }
      destruct (stagesV_prefix t from cur v n Hok Hcor) as (Hr & Hcs & _).
      pose proof (stagesV_stops t from cur (take n order) k (drop (S n) order) v e Hr He)
        as Hs.
      rewrite <- (take_drop_middle order n k Hk) at 1.
      rewrite Hs. cbn [fst snd s_calls]. rewrite Hcs.
      by rewrite (take_S_r order n k Hk), fmap_app.
    + destruct k; try discriminate Hc.
      assert (n = 4%nat) as ->.
      { do 12 (destruct n as [|n]; [by (discriminate Hk || done)|]). lia. }
      destruct (correlate (createdSeen t from cur v) (fetched t from cur NewSponsor))
        as [recs [[]|e]] eqn:Hq; [done|].
      destruct (fetchOk t from cur NewSponsor) eqn:Hf5.
      * assert (Hfive : forallb (fetchOk t from cur) upToNewSponsor = true).
        { change upToNewSponsor with (take 4 order ++ [NewSponsor]).
          rewrite forallb_app, Hok. cbn. by rewrite Hf5. }
        destruct (stagesV_correlation_fails t from cur v e Hfive) as (Hr & Hcs & _);
          [by rewrite Hq|].
        destruct (stagesV t from cur order v) as [[v1 cs] r]. cbn [fst snd] in *.
        subst r cs. done.
      * assert (∃ e', getPastEvents t (eventName NewSponsor) from cur = Throw e')
          as [e' He].
        { unfold fetchOk in Hf5. destruct (getPastEvents _ _ _ _); [done|eauto]. }
        destruct (stagesV_prefix t from cur v 4 Hok ltac:(lia)) as (Hr & Hcs & _).
        pose proof (stagesV_stops t from cur (take 4 order) NewSponsor
                      (drop 5 order) v e' Hr He) as Hs.
        change (take 4 order ++ NewSponsor :: drop 5 order) with order in Hs.
        rewrite Hs. cbn [fst snd s_calls]. by rewrite Hcs.
Qed.

Lemma order_NoDup : NoDup order.
Proof. apply (bool_decide_unpack _). vm_compute. reflexivity. Qed.

(** X12. In every state reached from construction the client's twelve arrays
    are allocated, pairwise distinct, and none of them is an array that
    existed before the client was constructed. *)
Theorem kinds_never_share_an_array h b ops :
  let w := exec ops (construct h b) in
  NoDup ((λ k, getEvents k w) <$> order) ∧
  Forall (λ k, (length h ≤ getEvents k w < length (heap w))%nat) order.
Proof.
  intros w. destruct (wf_reachable h b ops) as [Halloc Hinj]. fold w in Halloc, Hinj.
  destruct (frame_exec (length h) ops (construct h b)) as (Hown & _ & _).
  - apply wf_construct.
  - intros k. destruct k; cbn; lia.
  - cbn. rewrite length_app. lia.
  - fold w in Hown. split.
    + apply NoDup_fmap_2_strong; [|apply order_NoDup].
      intros j k _ _ E. by apply Hinj.
    + apply Forall_forall. intros k _. unfold getEvents. split; [apply Hown|apply Halloc].
Qed.

(** X13. When the block-number request is rejected, [update] throws that
    error and has done nothing else: no events are requested, and the
    twelve sequences, the cursor and the timestamp are as before. *)
Theorem height_failure_changes_nothing h b ops t e :
  let w := exec ops (construct h b) in
  let w' := fst (update t w) in
  getBlockNumber t = Throw e →
  snd (update t w) = Throw e ∧
  (∀ k, events k w' = events k w) ∧
  firstBlockToSearch (this w') = firstBlockToSearch (this w) ∧
  getLastUpdateTime w' = getLastUpdateTime w ∧
  asked t w = [GetBlockNumber].
Proof.
  intros w w' Hdown.
  assert (Hwf : wf w) by apply wf_reachable.
  rewrite (asked_summary t w Hwf).
  destruct (update_view t w Hwf) as (_ & _ & _ & _ & Hr & Hv & Hc & Hs).
  fold w' in Hv, Hc, Hs. unfold getLastUpdateTime.
  rewrite Hr, Hc, Hs. unfold updateV. rewrite Hdown. cbn.
  split_and!; try done. intros k. rewrite Hv. unfold updateV. by rewrite Hdown.
Qed.

Lemma height_failure_changes_nothing_witness :
  let w := exec [Update (node 100 matched [])] (construct [] 50) in
  let t := heightDown (node 130 matched []) in
  let w' := fst (update t w) in
  snd (update t w) = Throw (RpcError "timeout") ∧
  (∀ k, events k w' = events k w) ∧
  firstBlockToSearch (this w') = firstBlockToSearch (this w) ∧
  getLastUpdateTime w' = getLastUpdateTime w ∧
  asked t w = [GetBlockNumber].
Proof.
  apply (height_failure_changes_nothing [] 50 [Update (node 100 matched [])]
           (heightDown (node 130 matched [])) (RpcError "timeout")).
  reflexivity.
Defined.

Lemma stageV_idle t from cur k v :
  fetched t from cur k = [] → ∀ j, (stageV t from cur k v).1 j = v j.
Proof.
  unfold fetched, stageV. intros Hf j.
  destruct (getPastEvents t (eventName k) from cur) as [evs|e]; [subst evs|done].
  unfold add.
  destruct k; cbn [correlate fmap list_fmap fst]; destruct (decide _);
    by rewrite ?app_nil_r.
Qed.

Lemma stagesV_idle t from cur ks : ∀ v,
  Forall (λ k, fetched t from cur k = []) ks →
  ∀ j, (stagesV t from cur ks v).1.1 j = v j.
Proof.
  induction ks as [|k ks IH]; intros v Hks j; cbn [stagesV]; [done|].
  apply Forall_cons in Hks as [Hk Hks].
  pose proof (stageV_idle t from cur k v Hk j) as Hj.
  destruct (stageV t from cur k v) as [v1 [[]|e]]; cbn [fst] in Hj; [|done].
  specialize (IH v1 Hks j).
  destruct (stagesV t from cur ks v1) as [[v2 cs] r]. cbn [fst] in *. congruence.
Qed.

Lemma honestAnswer_empty from to evs :
  (to < from)%Z → honestAnswer from to evs = true → evs = [].
Proof.
  intros Hlt Hh. apply honestAnswer_spec in Hh as [_ Hr].
  destruct evs as [|e evs]; [done|]. cbn in Hr. apply Forall_cons in Hr as [Hr _]. lia.
Qed.

(** X14. An [update] whose cursor is already above the chain height, as when
    the client polls again before a new block, appends nothing when the
    transport answers with events of the requested range only; this holds
    whether the call completes or not. *)
Theorem caught_up_update_appends_nothing h b ops t :
  let w := exec ops (construct h b) in
  let w' := fst (update t w) in
  (height t < firstBlockToSearch (this w))%Z →
  honest t (firstBlockToSearch (this w)) = true →
  ∀ k, events k w' = events k w.
Proof.
  intros w w' Hlt Hh k.
  assert (Hwf : wf w) by apply wf_reachable.
  destruct (update_view t w Hwf) as (_ & _ & _ & _ & _ & Hv & _).
  fold w' in Hv. rewrite Hv.
  destruct (getBlockNumber t) as [cur|e] eqn:Hcur.
  - rewrite (updateV_view _ _ _ _ cur Hcur).
    assert (Hcur' : height t = cur) by (unfold height; by rewrite Hcur).
    unfold honest in Hh. rewrite forallb_forall in Hh.
    rewrite Hcur' in *. apply stagesV_idle.
    apply Forall_forall. intros j Hj. apply list_elem_of_In in Hj.
    apply (honestAnswer_empty (firstBlockToSearch (this w)) cur); [done|by apply Hh].
  - unfold updateV. by rewrite Hcur.
Qed.

Lemma caught_up_update_appends_nothing_witness :
  let w := exec [Update (node 100 matched [])] (construct [] 50) in
  let t := node 100 matched [] in
  firstBlockToSearch (this w) = 101%Z ∧
  snd (update t w) = Normal tt ∧
  Forall (λ k, events k (fst (update t w)) = events k w) order.
Proof.
  cbv zeta. split_and!; [vm_compute; reflexivity..|].
  apply Forall_forall. intros k _.
  apply (caught_up_update_appends_nothing [] 50 [Update (node 100 matched [])]
           (node 100 matched []));
    vm_compute; reflexivity.
Defined.

End EventClient.

(** * The bots' [run] *)

Module Bot.

(** ** Effects of a run *)

Inductive Effect : Type :=
| LoggerInfo (at_ message : string)
| LoggerError (at_ message : string) (error : Error)
| WaitForLogger
| ApproveTx (token spender : string) (amount : Z) (from : value)
| QueryAndDispute (k : nat)
| QueryAndLiquidate (k : nat)
| QueryAndWithdrawRewards (k : nat)
| Delay (ms : Z).

(** How far a call of [run] got: its promise resolved, or the loop is still
    polling when the model's fuel runs out. A rejected promise is [Throw]. *)
Inductive Progress : Type :=
| Returned
| Polling.

(** Modelled from the spec: [common/Constants] is not among the sources;
    [MAX_UINT_VAL] is "the maximum representable unsigned value" of the
    token's 256-bit allowances. *)
Definition MAX_UINT_VAL : Z := 2 ^ 256 - 1.

Section Run.

(** The chain and the token contract are collaborators: the state of the
    chain, the [allowance(owner, spender)] read of a token and the effect of
    an [approve(spender, amount, {from})] transaction are parameters. *)
Context {Chain Config : Type}.
Variable allowance : Chain → string → value → string → Completion Z.
Variable approve : Chain → string → string → Z → value → Chain * Completion string.

(** What the other awaited calls of [run] answer. [newClient] and
    [newEngine] are the constructors of the client and of the decision
    engine (the [Disputer] or the [Liquidator]); [act] is the engine's
    [queryAndDispute] or [queryAndLiquidate], by iteration, and
    [queryAndWithdrawRewards] its reward withdrawal. *)
Record Env : Type := {
  getAccounts : Completion (list string);
  ExpiringMultiParty_at : string → Completion string;
  createPriceFeed : Config → Completion (option unit);
  newClient : string → Completion string;
  newEngine : value → Completion unit;
  collateralCurrency : Completion string;
  tokenCurrency : Completion string;
  ExpandedERC20_at : string → Completion string;
  act : nat → Completion unit;
  queryAndWithdrawRewards : nat → Completion unit
}.

Record State : Type := {
  chain : Chain;
  trace : list Effect
}.

Definition B (A : Type) : Type := State → State * Completion A.

#[global] Instance B_ret : MRet B := λ A a s, (s, Normal a).
#[global] Instance B_bind : MBind B := λ A B f m s,
  match m s with
  | (s', Normal a) => f a s'
  | (s', Throw e) => (s', Throw e)
  end.

Definition await {A} (r : Completion A) : B A := λ s, (s, r).
Definition emit (e : Effect) : B unit :=
  λ s, ({| chain := chain s; trace := trace s ++ [e] |}, Normal tt).
Definition throw {A} (e : Error) : B A := λ s, (s, Throw e).

(** [try { body } catch (error) { handler(error) }] *)
Definition tryCatch {A} (body : B A) (handler : Error → B A) : B A :=
  λ s, match body s with
       | (s', Normal a) => (s', Normal a)
       | (s', Throw e) => handler e s'
       end.

(** [accounts[0]] *)
Definition first (accounts : list string) : value :=
  match accounts with a :: _ => str a | [] => undefined end.

(** [token.allowance(owner, spender)] *)
Definition readAllowance (token : string) (owner : value) (spender : string) : B Z :=
  λ s, (s, allowance (chain s) token owner spender).

(** [token.approve(spender, amount, { from })]: the transaction is
    submitted, then it confirms (with its hash) or fails. *)
Definition sendApprove (token spender : string) (amount : Z) (from : value) : B string :=
  λ s, let '(c, r) := approve (chain s) token spender amount from in
       ({| chain := c; trace := trace s ++ [ApproveTx token spender amount from] |}, r).

(** The [if (toBN(current).lt(toBN(MAX_UINT_VAL).div(toBN("2")))) { approve; log }]
    statement of [run]. *)
Definition approveIfLow (at_ message : string) (token : string) (owner : value)
    (spender : string) (current : Z) : B unit :=
  if (current <? MAX_UINT_VAL / 2)%Z then
    _ ← sendApprove token spender MAX_UINT_VAL owner;
    emit (LoggerInfo at_ message)
  else mret tt.

(** The allowance maintenance of one token: the read and the [if]. *)
Definition ensureAllowance (at_ message : string) (token : string) (owner : value)
    (spender : string) : B unit :=
  current ← readAllowance token owner spender;
  approveIfLow at_ message token owner spender current.

(** [while (true) { await act(); await withdraw(); await delay(d);
    if (!shouldPoll) break; }] from iteration [k] on, for [fuel] iterations. *)
Fixpoint poll (env : Env) (tag : nat → Effect) (shouldPoll : bool) (pollingDelay : Z)
    (fuel k : nat) : B Progress :=
  match fuel with
  | O => mret Polling
  | S fuel' =>
      emit (tag k);;
      await (act env k);;
      emit (QueryAndWithdrawRewards k);;
      await (queryAndWithdrawRewards env k);;
      emit (Delay pollingDelay);;
      if negb shouldPoll then mret Returned
      else poll env tag shouldPoll pollingDelay fuel' (S k)
  end.

(** [typeof error === "string" ? new Error(error) : error] *)
Definition asError (error : Error) : Error :=
  match error with
  | ThrownString s => JsError s
  | _ => error
  end.

(** The [catch] block of [run]. *)
Definition handler (at_ message : string) (error : Error) : B Progress :=
  emit (LoggerError at_ message (asError error));;
  emit WaitForLogger;;
  mret Returned.

(** Lines 40-54 of [disputer/index.js] (139-153 of the liquidator's): the
    accounts, the contract, the price feed, the client and the decision
    engine. None of these calls changes the chain or logs. It yields
    [accounts[0]] and [empClient.empAddress]. *)
Definition setup (env : Env) (address : string) (priceFeedConfig : Config)
  : Completion (value * string) :=
  match getAccounts env with
  | Throw e => Throw e
  | Normal accounts =>
  match ExpiringMultiParty_at env address with
  | Throw e => Throw e
  | Normal emp =>
  match createPriceFeed env priceFeedConfig with
  | Throw e => Throw e
  | Normal None => Throw (JsError "Price feed config is invalid")
  | Normal (Some _) =>
  match newClient env emp with
  | Throw e => Throw e
  | Normal empAddress =>
  match newEngine env (first accounts) with
  | Throw e => Throw e
  | Normal _ => Normal (first accounts, empAddress)
  end end end end end.

(** [disputer/index.js], [run] up to the loop. *)
Definition disputer_prepare (env : Env) (address : string) (priceFeedConfig : Config)
  : B unit :=
  emit (LoggerInfo "Disputer#index" "Disputer started🔎");;
  '(account, empAddress) ← await (setup env address priceFeedConfig);
  cc ← await (collateralCurrency env);
  collateralToken ← await (ExpandedERC20_at env cc);
  ensureAllowance "Disputer#index"
    "Approved EMP to transfer unlimited collateral tokens 💰"
    collateralToken account empAddress.

Definition disputer_run (env : Env) (address : string) (shouldPoll : bool)
    (pollingDelay : Z) (priceFeedConfig : Config) (fuel : nat) : B Progress :=
  tryCatch
    (disputer_prepare env address priceFeedConfig;;
     poll env QueryAndDispute shouldPoll pollingDelay fuel 0)
    (handler "Disputer#index🚨" "Disputer error").

(** Lines 159-180 of [liquidator/index.js]: both allowances are read before
    either approval is sent. *)
Definition liquidator_allowances (collateralToken syntheticToken : string)
    (account : value) (empAddress : string) : B unit :=
  currentCollateralAllowance ← readAllowance collateralToken account empAddress;
  currentSyntheticAllowance ← readAllowance syntheticToken account empAddress;
  approveIfLow "Liquidator#index"
    "Approved EMP to transfer unlimited collateral tokens 💰"
    collateralToken account empAddress currentCollateralAllowance;;
  approveIfLow "Liquidator#index"
    "Approved EMP to transfer unlimited synthetic tokens 💰"
    syntheticToken account empAddress currentSyntheticAllowance.

(** [liquidator/index.js], [run] up to the loop. *)
Definition liquidator_prepare (env : Env) (address : string) (priceFeedConfig : Config)
  : B unit :=
  emit (LoggerInfo "Liquidator#index" "Liquidator started 🌊");;
  '(account, empAddress) ← await (setup env address priceFeedConfig);
  cc ← await (collateralCurrency env);
  collateralToken ← await (ExpandedERC20_at env cc);
  tc ← await (tokenCurrency env);
  syntheticToken ← await (ExpandedERC20_at env tc);
  liquidator_allowances collateralToken syntheticToken account empAddress.

Definition liquidator_run (env : Env) (address : string) (shouldPoll : bool)
    (pollingDelay : Z) (priceFeedConfig : Config) (fuel : nat) : B Progress :=
  tryCatch
    (liquidator_prepare env address priceFeedConfig;;
     poll env QueryAndLiquidate shouldPoll pollingDelay fuel 0)
    (handler "Liquidator#index" "Liquidator polling error🚨").

(** The two bots, side by side. *)
Inductive Bot : Type := Disputer | Liquidator.

Definition prepare (bot : Bot) : Env → string → Config → B unit :=
  match bot with
  | Disputer => disputer_prepare
  | Liquidator => liquidator_prepare
  end.

Definition run (bot : Bot) : Env → string → bool → Z → Config → nat → B Progress :=
  match bot with
  | Disputer => disputer_run
  | Liquidator => liquidator_run
  end.

(** The effect of the bot's first loop statement, its start-up log record
    and its error record. *)
Definition engineCall (bot : Bot) : nat → Effect :=
  match bot with
  | Disputer => QueryAndDispute
  | Liquidator => QueryAndLiquidate
  end.

Definition started (bot : Bot) : Effect :=
  match bot with
  | Disputer => LoggerInfo "Disputer#index" "Disputer started🔎"
  | Liquidator => LoggerInfo "Liquidator#index" "Liquidator started 🌊"
  end.

Definition errorRecord (bot : Bot) (error : Error) : Effect :=
  match bot with
  | Disputer => LoggerError "Disputer#index🚨" "Disputer error" (asError error)
  | Liquidator =>
      LoggerError "Liquidator#index" "Liquidator polling error🚨" (asError error)
  end.

(** ** Vocabulary of the statements *)

(** Iteration [i] raises nothing. *)
Definition completes (env : Env) (i : nat) : bool :=
  isOk (act env i) && isOk (queryAndWithdrawRewards env i).

(** The effects of an iteration that completes. *)
Definition iteration (tag : nat → Effect) (pollingDelay : Z) (i : nat) : list Effect :=
  [tag i; QueryAndWithdrawRewards i; Delay pollingDelay].

(** The error iteration [i] raises, with the effects up to it. *)
Definition raises (env : Env) (tag : nat → Effect) (i : nat)
  : option (Error * list Effect) :=
  match act env i with
  | Throw e => Some (e, [tag i])
  | Normal _ =>
      match queryAndWithdrawRewards env i with
      | Throw e => Some (e, [tag i; QueryAndWithdrawRewards i])
      | Normal _ => None
      end
  end.

(** The approval transactions of a trace. *)
Definition transactions (tr : list Effect) : list Effect :=
  List.filter (λ e, match e with ApproveTx _ _ _ _ => true | _ => false end) tr.

Definition isDelay (e : Effect) : bool :=
  match e with Delay _ => true | _ => false end.

Definition extend (s : State) (es : list Effect) : State :=
  {| chain := chain s; trace := trace s ++ es |}.

(** ** The loop *)

Lemma bindB {A C} (m : B A) (f : A → B C) s :
  (m ≫= f) s = match m s with
               | (s', Normal a) => f a s'
               | (s', Throw e) => (s', Throw e)
               end.
Proof. reflexivity. Qed.

Lemma logged_logged s es es' : extend (extend s es) es' = extend s (es ++ es').
Proof. unfold extend; cbn. by rewrite <- app_assoc. Qed.

Lemma logged_nil s : extend s [] = s.
Proof. destruct s. unfold extend; cbn. by rewrite app_nil_r. Qed.

Lemma poll_raises env tag d n : ∀ fuel k s e partial,
  forallb (completes env) (seq k n) = true →
  raises env tag (k + n) = Some (e, partial) →
  (n < fuel)%nat →
  poll env tag true d fuel k s =
    (extend s (flat_map (iteration tag d) (seq k n) ++ partial), Throw e).
Proof.
  induction n as [|n IH]; intros fuel k s e partial Hok Hraise Hfuel;
    (destruct fuel as [|fuel]; [lia|]); cbn [poll].
  - rewrite Nat.add_0_r in Hraise. unfold raises in Hraise.
    rewrite !bindB. unfold emit at 1. rewrite bindB. unfold await at 1.
    destruct (act env k) as [[]|e1].
    + rewrite bindB. unfold emit at 1. rewrite bindB. unfold await at 1.
      destruct (queryAndWithdrawRewards env k) as [[]|e2]; [done|].
      injection Hraise as <- <-. cbn. unfold extend; cbn.
      by rewrite <- app_assoc.
    + injection Hraise as <- <-. done.
  - cbn [seq forallb] in Hok. apply andb_true_iff in Hok as [Hk Hok].
    unfold completes in Hk. apply andb_true_iff in Hk as [Ha Hw].
    rewrite !bindB. unfold emit at 1. rewrite bindB. unfold await at 1.
    destruct (act env k) as [[]|?]; [|done].
    rewrite bindB. unfold emit at 1. rewrite bindB. unfold await at 1.
    destruct (queryAndWithdrawRewards env k) as [[]|?]; [|done].
    rewrite bindB. unfold emit at 1. cbn [negb].
    rewrite (IH fuel (S k) _ e partial);
      [|done|by replace (S k + n)%nat with (k + S n)%nat by lia|lia].
    f_equal. unfold extend; cbn. f_equal. by rewrite <- !app_assoc.
Qed.

Lemma poll_polling env tag d fuel : ∀ k s,
  forallb (completes env) (seq k fuel) = true →
  poll env tag true d fuel k s =
    (extend s (flat_map (iteration tag d) (seq k fuel)), Normal Polling).
Proof.
  induction fuel as [|fuel IH]; intros k s Hok; cbn [poll].
  - by rewrite logged_nil.
  - cbn [seq forallb] in Hok. apply andb_true_iff in Hok as [Hk Hok].
    unfold completes in Hk. apply andb_true_iff in Hk as [Ha Hw].
    rewrite !bindB. unfold emit at 1. rewrite bindB. unfold await at 1.
    destruct (act env k) as [[]|?]; [|done].
    rewrite bindB. unfold emit at 1. rewrite bindB. unfold await at 1.
    destruct (queryAndWithdrawRewards env k) as [[]|?]; [|done].
    rewrite bindB. unfold emit at 1. cbn [negb].
    rewrite (IH (S k)) by done.
    f_equal. unfold extend; cbn. f_equal. by rewrite <- !app_assoc.
Qed.

Lemma handler_run at_ message e s :
  handler at_ message e s =
  (extend s [LoggerError at_ message (asError e); WaitForLogger], Normal Returned).
Proof.
  cbv [handler emit mbind B_bind mret B_ret extend]. cbn [chain trace].
  by rewrite <- app_assoc.
Qed.

Lemma run_unfold bot env address shouldPoll d cfg fuel s :
  run bot env address shouldPoll d cfg fuel s =
  match prepare bot env address cfg s with
  | (s1, Normal _) =>
      match poll env (engineCall bot) shouldPoll d fuel 0 s1 with
      | (s2, Normal p) => (s2, Normal p)
      | (s2, Throw e) => (extend s2 [errorRecord bot e; WaitForLogger], Normal Returned)
      end
  | (s1, Throw e) => (extend s1 [errorRecord bot e; WaitForLogger], Normal Returned)
  end.
Proof.
  destruct bot; cbn [run prepare engineCall errorRecord];
    unfold disputer_run, liquidator_run, tryCatch; rewrite bindB.
  - destruct (disputer_prepare env address cfg s) as [s1 [[]|e]];
      [|apply handler_run].
    destruct (poll _ _ _ _ _ _ s1) as [s2 [p|e]]; [done|apply handler_run].
  - destruct (liquidator_prepare env address cfg s) as [s1 [[]|e]];
      [|apply handler_run].
    destruct (poll _ _ _ _ _ _ s1) as [s2 [p|e]]; [done|apply handler_run].
Qed.

Lemma prepare_setup_fails bot env address cfg s e :
  setup env address cfg = Throw e →
  prepare bot env address cfg s = (extend s [started bot], Throw e).
Proof.
  intros H. destruct bot; cbn [prepare started];
    unfold disputer_prepare, liquidator_prepare; rewrite !bindB;
    unfold emit at 1; rewrite bindB; unfold await at 1; by rewrite H.
Qed.

(** C1, as amended. In continuous mode, when the set-up completes,
    iterations 0..k-1 complete and iteration [k] raises in either call of
    the decision engine, the error reaches the one [catch] of [run], which
    encloses the loop: it is logged, [run] returns without raising, and the
    loop is over. The effects are those of [k] whole iterations, of the
    failing one up to the call that raised (so without its delay), and of the
    handler; no later iteration starts. *)
Theorem loop_error_ends_run bot env address d cfg fuel k e partial s s1 :
  prepare bot env address cfg s = (s1, Normal tt) →
  forallb (completes env) (seq 0 k) = true →
  raises env (engineCall bot) k = Some (e, partial) →
  (k < fuel)%nat →
  run bot env address true d cfg fuel s =
    (extend s1 (flat_map (iteration (engineCall bot) d) (seq 0 k) ++ partial
                ++ [errorRecord bot e; WaitForLogger]),
     Normal Returned).
Proof.
  intros Hprep Hok Hraise Hfuel. rewrite run_unfold, Hprep.
  rewrite (poll_raises env _ d k fuel 0 s1 e partial Hok Hraise Hfuel).
  by rewrite logged_logged, <- app_assoc.
Qed.

(** C8, as amended. A failure of the set-up (no accounts or contract, a
    price feed that is absent or cannot be built, a client or decision
    engine that cannot be constructed) happens before the loop: nothing but
    the start-up record precedes it. It is caught by [run] itself, logged as
    an error, and [run] returns normally, in either mode and for either bot:
    nothing is raised to the caller. *)
Theorem setup_failure_is_logged_not_raised bot env address shouldPoll d cfg fuel s e :
  setup env address cfg = Throw e →
  run bot env address shouldPoll d cfg fuel s =
    (extend s [started bot; errorRecord bot e; WaitForLogger], Normal Returned).
Proof.
  intros H. rewrite run_unfold, (prepare_setup_fails _ _ _ _ _ _ H).
  by rewrite logged_logged.
Qed.

End Run.

(** ** Fixtures *)

(** An ERC-20 ledger keyed by (token, owner, spender): an allowance never
    set reads 0, and [approve] sets the allowance it is given. *)
Definition ledger_allowance (c : gmap (string * string * string) Z)
    (token : string) (owner : value) (spender : string) : Completion Z :=
  match owner with
  | str o => Normal (default 0%Z (c !! (token, o, spender)))
  | _ => Throw (JsError "invalid address")
  end.

Definition ledger_approve (c : gmap (string * string * string) Z)
    (token spender : string) (amount : Z) (from : value)
  : gmap (string * string * string) Z * Completion string :=
  match from with
  | str o => (<[(token, o, spender) := amount]> c, Normal "0x7a")
  | _ => (c, Throw (JsError "invalid address"))
  end.

(** An environment in which everything works, but for the decision engine's
    calls, which answer as given; the price feed exists for the
    configuration ["uniswap"] only. *)
Definition envWith (acts rewards : nat → Completion unit) : Env (Config := string) :=
  {| getAccounts := Normal ["0xb07"];
     ExpiringMultiParty_at := λ address, Normal address;
     createPriceFeed := λ cfg,
       Normal (if String.eqb cfg "uniswap" then Some tt else None);
     newClient := λ emp, Normal emp;
     newEngine := λ _, Normal tt;
     collateralCurrency := Normal "0xc011";
     tokenCurrency := Normal "0x5e17";
     ExpandedERC20_at := λ a, Normal a;
     act := acts;
     queryAndWithdrawRewards := rewards |}.

Definition always : nat → Completion unit := λ _, Normal tt.

(** The decision engine raises at its first call. *)
Definition raisesAtOnce : nat → Completion unit :=
  λ k, match k with O => Throw (RpcError "timeout") | _ => Normal tt end.

Definition fresh : State (Chain := gmap (string * string * string) Z) :=
  {| chain := ∅; trace := [] |}.

Definition runOn := run (Config := string) ledger_allowance ledger_approve.

(** The repository's test "Completes one iteration without throwing an
    error": single-shot mode, one iteration, both allowances set. *)
Example single_shot_completes :
  runOn Liquidator (envWith always always) "0xe39" false 10000 "uniswap" 3 fresh =
  ({| chain := {[ ("0xc011", "0xb07", "0xe39") := MAX_UINT_VAL;
                  ("0x5e17", "0xb07", "0xe39") := MAX_UINT_VAL ]};
      trace := [LoggerInfo "Liquidator#index" "Liquidator started 🌊";
                ApproveTx "0xc011" "0xe39" MAX_UINT_VAL (str "0xb07");
                LoggerInfo "Liquidator#index"
                  "Approved EMP to transfer unlimited collateral tokens 💰";
                ApproveTx "0x5e17" "0xe39" MAX_UINT_VAL (str "0xb07");
                LoggerInfo "Liquidator#index"
                  "Approved EMP to transfer unlimited synthetic tokens 💰";
                QueryAndLiquidate 0; QueryAndWithdrawRewards 0; Delay 10000] |},
   Normal Returned).
Proof. vm_compute. reflexivity. Qed.

(** C1 as stated fails: in continuous mode, with fuel for five iterations,
    an error of [queryAndDispute] in the first iteration ends the run. There
    is no delay and no second iteration. *)
Lemma loop_error_terminates_continuous_run :
  let '(s, r) :=
    runOn Disputer (envWith raisesAtOnce always) "0xe39" true 10000 "uniswap" 5 fresh in
  r = Normal Returned ∧
  List.filter isDelay (trace s) = [] ∧
  List.filter (λ e, match e with QueryAndDispute _ => true | _ => false end) (trace s)
    = [QueryAndDispute 0] ∧
  last (trace s) = Some WaitForLogger.
Proof. vm_compute. done. Qed.

(** The liquidator's reward withdrawal throws a string in iteration 2. *)
Lemma loop_error_ends_run_witness :
  runOn Liquidator (envWith always (λ k, if (k =? 2)%nat then Throw (ThrownString "nonce too low") else Normal tt))
    "0xe39" true 10000 "uniswap" 7 fresh =
  (extend (prepare ledger_allowance ledger_approve Liquidator
             (envWith always (λ k, if (k =? 2)%nat then Throw (ThrownString "nonce too low") else Normal tt))
             "0xe39" "uniswap" fresh).1
     (flat_map (iteration QueryAndLiquidate 10000) (seq 0 2)
      ++ [QueryAndLiquidate 2; QueryAndWithdrawRewards 2]
      ++ [errorRecord Liquidator (ThrownString "nonce too low"); WaitForLogger]),
   Normal Returned).
Proof.
  apply (loop_error_ends_run ledger_allowance ledger_approve Liquidator _ "0xe39"
           10000 "uniswap" 7 2 (ThrownString "nonce too low")
           [QueryAndLiquidate 2; QueryAndWithdrawRewards 2] fresh);
    [vm_compute; reflexivity | reflexivity | reflexivity | lia].
Defined.

(** C8 as stated fails: with an invalid price-feed configuration [run]
    logs the error and returns normally; its caller sees no error. *)
Lemma setup_failure_returns_normally :
  runOn Disputer (envWith always always) "0xe39" true 10000 "invalid" 5 fresh =
  ({| chain := ∅;
      trace := [LoggerInfo "Disputer#index" "Disputer started🔎";
                LoggerError "Disputer#index🚨" "Disputer error"
                  (JsError "Price feed config is invalid");
                WaitForLogger] |},
   Normal Returned).
Proof. vm_compute. reflexivity. Qed.

Lemma setup_failure_is_logged_not_raised_witness :
  runOn Liquidator (envWith always always) "0xe39" false 10000 "invalid" 1 fresh =
  (extend fresh [started Liquidator;
                 errorRecord Liquidator (JsError "Price feed config is invalid");
                 WaitForLogger],
   Normal Returned).
Proof.
  apply (setup_failure_is_logged_not_raised ledger_allowance ledger_approve
           Liquidator (envWith always always) "0xe39" false 10000 "invalid" 1 fresh).
  reflexivity.
Defined.

(** ** Further properties of the bots *)

#[global] Instance value_eq_dec : EqDecision value.
Proof. solve_decision. Defined.

(** What [callback] has been called with when [Poll] stops: nothing yet (the
    loop is still polling), no argument, or an error. *)
Inductive Callback : Type :=
| NotCalled
| Called (error : option Error).

(** JavaScript's truthiness of [process.env.X]: set and not empty. *)
Definition truthy (v : option string) : bool :=
  match v with
  | Some s => negb (String.eqb s "")
  | None => false
  end.

Definition missingAddress : Error :=
  JsError "Bad input arg! Specify an `EMP_ADDRESS` for the location of the expiring Multi Party within your environment variables.".

Definition missingPriceFeedConfig (bot : Bot) : Error :=
  match bot with
  | Disputer =>
      JsError "Bad input arg! Specify a `PRICE_FEED_CONFIG` for price feed config for the disputer bot to use."
  | Liquidator =>
      JsError "Bad input arg! Specify an `PRICE_FEED_CONFIG` for the location of the expiring Multi Party within your environment variables."
  end.

Definition configurationErrorRecord (bot : Bot) (error : Error) : Effect :=
  match bot with
  | Disputer =>
      LoggerError "Disputer#index🚨" "Disputer configuration error" (asError error)
  | Liquidator =>
      LoggerError "Liquidator#index" "Liquidator configuration error🚨" (asError error)
  end.






Section Further.

Context {Chain Config : Type}.
Variable allowance : Chain → string → value → string → Completion Z.
Variable approve : Chain → string → string → Z → value → Chain * Completion string.

(** [JSON.parse] of the price-feed configuration and [Number] of the polling
    delay are JavaScript's own; they are parameters. *)
Variable JSON_parse : string → Completion Config.
Variable Number_ : string → Z.

(** The [try] block of [Poll]. The decision engine's configuration
    ([DISPUTER_CONFIG], [LIQUIDATOR_CONFIG]) only reaches the engine's
    constructor, whose answer is [newEngine]. *)
Definition pollBody (bot : Bot) (processEnv : gmap string string) (env : Env)
    (fuel : nat) : B Progress :=
  if negb (truthy (processEnv !! "EMP_ADDRESS")) then throw missingAddress
  else
    let pollingDelay :=
      if truthy (processEnv !! "POLLING_DELAY")
      then Number_ (default "" (processEnv !! "POLLING_DELAY"))
      else 10000%Z in
    if negb (truthy (processEnv !! "PRICE_FEED_CONFIG"))
    then throw (missingPriceFeedConfig bot)
    else
      priceFeedConfig ←
        await (JSON_parse (default "" (processEnv !! "PRICE_FEED_CONFIG")));
      run allowance approve bot env (default "" (processEnv !! "EMP_ADDRESS"))
        true pollingDelay priceFeedConfig fuel.

(** [Poll(callback)]: the body, its [catch] block, and the final
    [callback()]. *)
Definition Poll (bot : Bot) (processEnv : gmap string string) (env : Env)
    (fuel : nat) (s : State) : State * Callback :=
  match pollBody bot processEnv env fuel s with
  | (s', Normal Returned) => (s', Called None)
  | (s', Normal Polling) => (s', NotCalled)
  | (s', Throw error) =>
      (extend s' [configurationErrorRecord bot error; WaitForLogger],
       Called (Some error))
  end.

(** The token behaves as an ERC-20 ledger: a confirmed [approve] sets the
    allowance of its (token, owner, spender) and no other. *)
Definition erc20 : Prop :=
  ∀ c token spender amount from c' hash,
    approve c token spender amount from = (c', Normal hash) →
    ∀ token' owner' spender',
      allowance c' token' owner' spender' =
      if decide ((token', owner', spender') = (token, from, spender))
      then Normal amount
      else allowance c token' owner' spender'.

(** The allowance reads at least half of [MAX_UINT_VAL]. *)
Definition hasHeadroom (c : Chain) (token : string) (owner : value)
    (spender : string) : Prop :=
  ∃ a, allowance c token owner spender = Normal a ∧ (MAX_UINT_VAL / 2 ≤ a)%Z.

(** The allowance statements of [run]: lines 59-69 of the disputer, 159-180
    of the liquidator. *)
Definition allowances (bot : Bot) (collateralToken syntheticToken : string)
    (account : value) (empAddress : string) : B unit :=
  match bot with
  | Disputer =>
      ensureAllowance allowance approve "Disputer#index"
        "Approved EMP to transfer unlimited collateral tokens 💰"
        collateralToken account empAddress
  | Liquidator =>
      liquidator_allowances allowance approve collateralToken syntheticToken
        account empAddress
  end.



Lemma run_returns bot env address shouldPoll d (cfg : Config) fuel s :
  ∃ p, (run allowance approve bot env address shouldPoll d cfg fuel s).2 = Normal p.
Proof.
  rewrite run_unfold.
  destruct (prepare allowance approve bot env address cfg s) as [s1 [[]|e]];
    [|by eexists].
  destruct (poll env (engineCall bot) shouldPoll d fuel 0 s1) as [s2 [p|e]];
    by eexists.
Qed.

Lemma poll_single env tag d fuel k (s : State (Chain := Chain)) :
  poll (Config := Config) env tag false d (S fuel) k s =
  match raises env tag k with
  | None => (extend s (iteration tag d k), Normal Returned)
  | Some (e, partial) => (extend s partial, Throw e)
  end.
Proof.
  cbn [poll]. unfold raises. rewrite !bindB. unfold emit at 1.
  rewrite bindB. unfold await at 1.
  destruct (act env k) as [[]|e1]; [|done].
  rewrite bindB. unfold emit at 1. rewrite bindB. unfold await at 1.
  destruct (queryAndWithdrawRewards env k) as [[]|e2].
  - rewrite bindB. unfold emit at 1. cbn [negb].
    unfold extend, iteration. cbv [mret B_ret]. cbn [chain trace].
    by rewrite <- !app_assoc.
  - unfold extend. cbn [chain trace]. by rewrite <- !app_assoc.
Qed.

Lemma first_failure (env : Env (Config := Config)) tag fuel :
  forallb (completes env) (seq 0 fuel) = false →
  ∃ k e partial, (k < fuel)%nat ∧ forallb (completes env) (seq 0 k) = true ∧
                 raises env tag k = Some (e, partial).
Proof.
  induction fuel as [|n IH]; [done|].
  rewrite seq_S, forallb_app. cbn [forallb Nat.add].
  destruct (forallb (completes env) (seq 0 n)) eqn:Hn.
  - cbn [andb]. rewrite andb_true_r. intros Hc.
    exists n. unfold completes in Hc. unfold raises.
    destruct (act env n) as [[]|e1]; [|exists e1; eexists; split_and!; [lia|done..]].
    destruct (queryAndWithdrawRewards env n) as [[]|e2]; [done|].
    exists e2. eexists. split_and!; [lia|done..].
  - intros _. destruct (IH eq_refl) as (k & e & partial & Hk & Hok & Hr).
    exists k, e, partial. split_and!; try done. lia.
Qed.

(** X15. [run] never raises, for either bot and in either mode, and it is
    still in its loop only when nothing has failed: in continuous mode (or
    before the first iteration), with the set-up and the allowance
    statements completed and every iteration so far completed. After any
    failure, and after the one iteration of single-shot mode, it has
    returned. *)
Theorem run_never_raises bot env address shouldPoll d (cfg : Config) fuel
    (s : State (Chain := Chain)) :
  ∃ p, (run allowance approve bot env address shouldPoll d cfg fuel s).2 = Normal p ∧
       (p = Polling ↔
        (shouldPoll = true ∨ fuel = 0%nat) ∧
        (prepare allowance approve bot env address cfg s).2 = Normal tt ∧
        forallb (completes env) (seq 0 fuel) = true).
Proof.
  rewrite run_unfold.
  destruct (prepare allowance approve bot env address cfg s) as [s1 [[]|e]];
    cbn [snd]; [|exists Returned; split; [done|]; split; [done|by intros (_ & ? & _)]].
  destruct fuel as [|fuel].
  { cbn [poll]. exists Polling. split; [done|]. split; [|done]. intros _.
    split_and!; [by right|done..]. }
  destruct shouldPoll.
  - destruct (forallb (completes env) (seq 0 (S fuel))) eqn:Hall.
    + rewrite (poll_polling env _ d (S fuel) 0 s1 Hall). exists Polling.
      split; [done|]. split; [|done]. intros _. split_and!; [by left|done..].
    + destruct (first_failure env (engineCall bot) (S fuel) Hall)
        as (k & e & partial & Hk & Hok & Hr).
      rewrite (poll_raises env _ d k (S fuel) 0 s1 e partial Hok Hr Hk).
      exists Returned. split; [done|]. split; [done|]. by intros (_ & _ & ?).
  - rewrite poll_single.
    exists Returned. split.
    + by destruct (raises env (engineCall bot) 0) as [[e partial]|].
    + split; [done|]. intros ([?|?] & _); done.
Qed.

(** X16. In single-shot mode, once set-up and the allowance statements have
    completed, [run] performs exactly one iteration and returns: the two
    engine calls and the delay, or, when an engine call raises, what was
    done up to it followed by one error record. *)
Theorem single_shot_runs_one_iteration bot env address d (cfg : Config) fuel s s1 :
  prepare allowance approve bot env address cfg s = (s1, Normal tt) →
  run allowance approve bot env address false d cfg (S fuel) s =
  match raises env (engineCall bot) 0 with
  | None => (extend s1 (iteration (engineCall bot) d 0), Normal Returned)
  | Some (e, partial) =>
      (extend s1 (partial ++ [errorRecord bot e; WaitForLogger]), Normal Returned)
  end.
Proof.
  intros Hprep. rewrite run_unfold, Hprep, poll_single.
  destruct (raises env (engineCall bot) 0) as [[e partial]|]; [|done].
  by rewrite logged_logged.
Qed.

(** X17. In continuous mode, as long as the engine's calls complete, [run]
    does not return: after any number of iterations it is still polling,
    having performed the two engine calls and the delay of each iteration
    in turn, and logged no error. *)
Theorem continuous_run_keeps_polling bot env address d (cfg : Config) fuel s s1 :
  prepare allowance approve bot env address cfg s = (s1, Normal tt) →
  forallb (completes env) (seq 0 fuel) = true →
  run allowance approve bot env address true d cfg fuel s =
    (extend s1 (flat_map (iteration (engineCall bot) d) (seq 0 fuel)), Normal Polling).
Proof.
  intros Hprep Hok. by rewrite run_unfold, Hprep, (poll_polling env _ d fuel 0 s1 Hok).
Qed.

Lemma ensureAllowance_cases at_ message token owner spender (s : State) :
  match allowance (chain s) token owner spender with
  | Throw e => ensureAllowance allowance approve at_ message token owner spender s
               = (s, Throw e)
  | Normal a =>
      if (a <? MAX_UINT_VAL / 2)%Z then
        let sent := approve (chain s) token spender MAX_UINT_VAL owner in
        ensureAllowance allowance approve at_ message token owner spender s =
        match sent.2 with
        | Normal _ =>
            ({| chain := sent.1;
                trace := trace s ++ [ApproveTx token spender MAX_UINT_VAL owner;
                                     LoggerInfo at_ message] |}, Normal tt)
        | Throw e =>
            ({| chain := sent.1;
                trace := trace s ++ [ApproveTx token spender MAX_UINT_VAL owner] |},
             Throw e)
        end
      else ensureAllowance allowance approve at_ message token owner spender s
           = (s, Normal tt)
  end.
Proof.
  destruct (allowance (chain s) token owner spender) as [a|e] eqn:Hread.
  2:{ cbv [ensureAllowance readAllowance mbind B_bind]. by rewrite Hread. }
  destruct (a <? MAX_UINT_VAL / 2)%Z eqn:Hlow.
  - cbv [ensureAllowance readAllowance approveIfLow sendApprove emit mbind B_bind].
    rewrite Hread, Hlow.
    destruct (approve (chain s) token spender MAX_UINT_VAL owner) as [c [hash|e]];
      cbn [chain trace fst snd]; [|done].
    by rewrite <- app_assoc.
  - cbv [ensureAllowance readAllowance approveIfLow mbind B_bind mret B_ret].
    by rewrite Hread, Hlow.
Qed.

(** X18. On an ERC-20 token, when the allowance statements of [run] complete,
    the allowance of the contract over the bot's tokens is at least half of
    [MAX_UINT_VAL], whatever it was before. *)
Theorem ensureAllowance_leaves_headroom at_ message token owner spender s s' :
  erc20 →
  ensureAllowance allowance approve at_ message token owner spender s = (s', Normal tt) →
  hasHeadroom (chain s') token owner spender.
Proof.
  intros Herc Hrun.
  pose proof (ensureAllowance_cases at_ message token owner spender s) as Hc.
  destruct (allowance (chain s) token owner spender) as [a|e] eqn:Hread;
    [|congruence].
  destruct (a <? MAX_UINT_VAL / 2)%Z eqn:Hlow.
  - cbn zeta in Hc.
    destruct (approve (chain s) token spender MAX_UINT_VAL owner) as [c [hash|e]] eqn:Hs;
      cbn [fst snd] in Hc; rewrite Hc in Hrun; [|done].
    injection Hrun as <-. cbn [chain].
    exists MAX_UINT_VAL. split; [|by vm_compute].
    rewrite (Herc _ _ _ _ _ _ _ Hs). by rewrite decide_True.
  - rewrite Hc in Hrun. injection Hrun as <-.
    exists a. split; [done|]. by apply Z.ltb_ge.
Qed.

Lemma headroom_after_approve c token spender from c' hash token' :
  erc20 →
  approve c token spender MAX_UINT_VAL from = (c', Normal hash) →
  (token' = token ∨ hasHeadroom c token' from spender) →
  hasHeadroom c' token' from spender.
Proof.
  intros Herc Hs Hcase. unfold hasHeadroom. rewrite (Herc _ _ _ _ _ _ _ Hs).
  destruct (decide ((token', from, spender) = (token, from, spender))) as [E|Hne].
  - exists MAX_UINT_VAL. split; [done|by vm_compute].
  - destruct Hcase as [->|H]; [done|exact H].
Qed.

(** X19. On ERC-20 tokens, when the liquidator's allowance statements
    complete, both the collateral and the synthetic allowance are at least
    half of [MAX_UINT_VAL]: the second approval does not disturb the
    first, even when both currencies are the same token. *)
Theorem liquidator_allowances_leave_headroom collateralToken syntheticToken account
    empAddress s s' :
  erc20 →
  liquidator_allowances allowance approve collateralToken syntheticToken account
    empAddress s = (s', Normal tt) →
  hasHeadroom (chain s') collateralToken account empAddress ∧
  hasHeadroom (chain s') syntheticToken account empAddress.
Proof.
  intros Herc.
  cbv [liquidator_allowances readAllowance approveIfLow sendApprove emit mbind B_bind
       mret B_ret]. cbn [chain trace].
  destruct (allowance (chain s) collateralToken account empAddress) as [a|e] eqn:Ha;
    [|intros [=]].
  destruct (allowance (chain s) syntheticToken account empAddress) as [b|e] eqn:Hb;
    [|intros [=]].
  assert (Hhigh : ∀ x tok, allowance (chain s) tok account empAddress = Normal x →
            (x <? MAX_UINT_VAL / 2)%Z = false → hasHeadroom (chain s) tok account empAddress).
  { intros x tok Hx Hlt. exists x. split; [done|by apply Z.ltb_ge]. }
  destruct (a <? MAX_UINT_VAL / 2)%Z eqn:Hla.
  - destruct (approve (chain s) collateralToken empAddress MAX_UINT_VAL account)
      as [c1 [h1|e]] eqn:H1; cbn [chain trace]; [|intros [=]].
    assert (Hc1 : hasHeadroom c1 collateralToken account empAddress)
      by (apply (headroom_after_approve _ _ _ _ _ _ _ Herc H1); by left).
    destruct (b <? MAX_UINT_VAL / 2)%Z eqn:Hlb.
    + cbv beta iota zeta. cbn [chain trace].
      destruct (approve c1 syntheticToken empAddress MAX_UINT_VAL account)
        as [c2 [h2|e]] eqn:H2; cbn [chain trace]; [|intros [=]].
      intros E. injection E as <-. cbn [chain]. split.
      * apply (headroom_after_approve _ _ _ _ _ _ _ Herc H2). by right.
      * apply (headroom_after_approve _ _ _ _ _ _ _ Herc H2). by left.
    + intros E. injection E as <-. cbn [chain]. split; [done|].
      apply (headroom_after_approve _ _ _ _ _ _ _ Herc H1). right. by eapply Hhigh.
  - destruct (b <? MAX_UINT_VAL / 2)%Z eqn:Hlb.
    + destruct (approve (chain s) syntheticToken empAddress MAX_UINT_VAL account)
        as [c2 [h2|e]] eqn:H2; cbn [chain trace]; [|intros [=]].
      intros E. injection E as <-. cbn [chain]. split.
      * apply (headroom_after_approve _ _ _ _ _ _ _ Herc H2). right. by eapply Hhigh.
      * apply (headroom_after_approve _ _ _ _ _ _ _ Herc H2). by left.
    + intros E. injection E as <-. split; by eapply Hhigh.
Qed.

(** X20. The repository's test "Sets token allowances correctly": on ERC-20
    tokens whose allowances both read below half of [MAX_UINT_VAL], once
    the liquidator's allowance statements complete both allowances read
    exactly [MAX_UINT_VAL]. *)
Theorem low_allowances_are_set_to_the_maximum collateralToken syntheticToken account
    empAddress s s' a b :
  erc20 →
  allowance (chain s) collateralToken account empAddress = Normal a →
  (a < MAX_UINT_VAL / 2)%Z →
  allowance (chain s) syntheticToken account empAddress = Normal b →
  (b < MAX_UINT_VAL / 2)%Z →
  liquidator_allowances allowance approve collateralToken syntheticToken account
    empAddress s = (s', Normal tt) →
  allowance (chain s') collateralToken account empAddress = Normal MAX_UINT_VAL ∧
  allowance (chain s') syntheticToken account empAddress = Normal MAX_UINT_VAL.
Proof.
  intros Herc Ha Hla Hb Hlb.
  apply Z.ltb_lt in Hla, Hlb.
  cbv [liquidator_allowances readAllowance approveIfLow sendApprove emit mbind B_bind
       mret B_ret]. cbn [chain trace].
  rewrite Ha, Hb, Hla.
  destruct (approve (chain s) collateralToken empAddress MAX_UINT_VAL account)
    as [c1 [h1|e]] eqn:H1; cbn [chain trace]; [|intros [=]].
  rewrite Hlb. cbv beta iota zeta. cbn [chain trace].
  destruct (approve c1 syntheticToken empAddress MAX_UINT_VAL account)
    as [c2 [h2|e]] eqn:H2; cbn [chain trace]; [|intros [=]].
  intros E. injection E as <-. cbn [chain].
  rewrite !(Herc _ _ _ _ _ _ _ H2), !(Herc _ _ _ _ _ _ _ H1).
  split.
  - rewrite (decide_True (P := (collateralToken, account, empAddress)
                               = (collateralToken, account, empAddress))) by done.
    by destruct (decide _).
  - by rewrite decide_True.
Qed.

(** X21. The liquidator reads both allowances before it approves either:
    when the collateral read or the synthetic read is rejected, no
    transaction has been sent and nothing has been logged. *)
Theorem liquidator_reads_before_it_approves collateralToken syntheticToken account
    empAddress s e :
  allowance (chain s) collateralToken account empAddress = Throw e ∨
  (isOk (allowance (chain s) collateralToken account empAddress) = true ∧
   allowance (chain s) syntheticToken account empAddress = Throw e) →
  liquidator_allowances allowance approve collateralToken syntheticToken account
    empAddress s = (s, Throw e).
Proof.
  cbv [liquidator_allowances readAllowance mbind B_bind].
  intros [Ha|[Ha Hb]].
  - by rewrite Ha.
  - destruct (allowance (chain s) collateralToken account empAddress); [|done].
    by rewrite Hb.
Qed.

(** X22. [Poll] reports a configuration error to its callback, after logging
    it once and without starting [run]: a missing or empty [EMP_ADDRESS], a
    missing or empty [PRICE_FEED_CONFIG] (checked in that order), or a
    [PRICE_FEED_CONFIG] that [JSON.parse] rejects. *)
Theorem Poll_reports_configuration_errors bot processEnv env fuel s :
  let report error :=
    (extend s [configurationErrorRecord bot error; WaitForLogger], Called (Some error)) in
  (truthy (processEnv !! "EMP_ADDRESS") = false →
   Poll bot processEnv env fuel s = report missingAddress) ∧
  (truthy (processEnv !! "EMP_ADDRESS") = true →
   truthy (processEnv !! "PRICE_FEED_CONFIG") = false →
   Poll bot processEnv env fuel s = report (missingPriceFeedConfig bot)) ∧
  (∀ e,
   truthy (processEnv !! "EMP_ADDRESS") = true →
   truthy (processEnv !! "PRICE_FEED_CONFIG") = true →
   JSON_parse (default "" (processEnv !! "PRICE_FEED_CONFIG")) = Throw e →
   Poll bot processEnv env fuel s = report e).
Proof.
  cbn zeta. unfold Poll, pollBody. split_and!.
  - by intros ->.
  - by intros -> ->.
  - intros e -> ->. cbn [negb]. rewrite bindB. unfold await at 1. by intros ->.
Qed.

(** X23. Once the configuration is read, [Poll] does what [run] does in
    continuous mode and never calls back with an error: when [run] returns,
    even after logging a failure, the callback is called without
    argument. *)
Theorem Poll_never_reports_a_run_error bot processEnv env fuel s cfg :
  truthy (processEnv !! "EMP_ADDRESS") = true →
  truthy (processEnv !! "PRICE_FEED_CONFIG") = true →
  JSON_parse (default "" (processEnv !! "PRICE_FEED_CONFIG")) = Normal cfg →
  let delay := if truthy (processEnv !! "POLLING_DELAY")
               then Number_ (default "" (processEnv !! "POLLING_DELAY"))
               else 10000%Z in
  let ran := run allowance approve bot env (default "" (processEnv !! "EMP_ADDRESS"))
               true delay cfg fuel s in
  ∃ p, ran.2 = Normal p ∧
       Poll bot processEnv env fuel s =
         (ran.1, match p with Returned => Called None | Polling => NotCalled end).
Proof.
  intros Ha Hp Hj delay ran.
  destruct (run_returns bot env (default "" (processEnv !! "EMP_ADDRESS")) true
              delay cfg fuel s) as [p Hrun].
  fold ran in Hrun. exists p. split; [exact Hrun|].
  unfold Poll, pollBody. rewrite Ha, Hp. cbn [negb]. rewrite bindB.
  unfold await at 1. rewrite Hj. fold delay. fold ran.
  clearbody ran. destruct ran as [s' r]. cbn [fst snd] in *. subst r.
  by destruct p.
Qed.

(** [run] up to the loop is the set-up followed by the allowance
    statements. *)
Lemma prepare_allowances bot (env : Env (Config := Config)) address cfg account
    empAddress cc collateralToken tc syntheticToken (s : State (Chain := Chain)) :
  setup env address cfg = Normal (account, empAddress) →
  collateralCurrency env = Normal cc →
  ExpandedERC20_at env cc = Normal collateralToken →
  tokenCurrency env = Normal tc →
  ExpandedERC20_at env tc = Normal syntheticToken →
  prepare allowance approve bot env address cfg s =
  allowances bot collateralToken syntheticToken account empAddress
    (extend s [started bot]).
Proof.
  intros Hs Hc Hct Ht Hst.
  destruct bot; cbn [prepare allowances started];
    unfold disputer_prepare, liquidator_prepare;
    rewrite !bindB; unfold emit at 1; rewrite bindB; unfold await at 1; rewrite Hs;
    cbv beta iota; rewrite bindB; unfold await at 1; rewrite Hc;
    rewrite bindB; unfold await at 1; rewrite Hct.
  - done.
  - rewrite bindB. unfold await at 1. rewrite Ht.
    rewrite bindB. unfold await at 1. rewrite Hst. done.
Qed.







End Further.

(** [JSON.parse] on the texts used below. Of these only ["{}"], the empty
    object, is JSON; ["{"] is cut short and every other text used here is
    no JSON text either, so each is rejected with a [SyntaxError]. A
    configuration with members needs the quote character. *)
Definition parseConfig (s : string) : Completion string :=
  if String.eqb s "{}" then Normal "{}"
  else if String.eqb s "{" then Throw (JsError "Unexpected end of JSON input")
  else Throw (JsError "Unexpected token in JSON at position 0").

(** [Number] on the one delay used below, the decimal text [5000]. *)
Definition parseDelay (s : string) : Z :=
  if String.eqb s "5000" then 5000 else 0.

Definition PollOn :=
  Poll (Config := string) ledger_allowance ledger_approve parseConfig parseDelay.

(** [m s = ((m s).1, Normal tt)]: only the answer is evaluated. *)
Ltac answers :=
  apply injective_projections; [reflexivity | vm_compute; reflexivity].

Lemma ledger_erc20 : erc20 ledger_allowance ledger_approve.
Proof.
  intros c token spender amount from c' hash Happ token' owner' spender'.
  destruct from as [| |o|]; try discriminate Happ.
  cbn [ledger_approve] in Happ. injection Happ as <- _.
  destruct owner' as [| |o'|]; cbn [ledger_allowance];
    try (rewrite decide_False; [done|congruence]).
  destruct (decide ((token', str o', spender') = (token, str o, spender))) as [E|Hne].
  - injection E as -> -> ->. by rewrite lookup_insert_eq.
  - rewrite lookup_insert_ne; [done|congruence].
Qed.

Lemma single_shot_runs_one_iteration_witness :
  let env := envWith always raisesAtOnce in
  let s1 := (prepare ledger_allowance ledger_approve Disputer env "0xe39" "uniswap" fresh).1 in
  runOn Disputer env "0xe39" false 10000 "uniswap" 1 fresh =
  (extend s1 ([QueryAndDispute 0; QueryAndWithdrawRewards 0]
              ++ [errorRecord Disputer (RpcError "timeout"); WaitForLogger]),
   Normal Returned).
Proof.
  apply (single_shot_runs_one_iteration ledger_allowance ledger_approve Disputer
           (envWith always raisesAtOnce) "0xe39" 10000 "uniswap" 0 fresh).
  answers.
Defined.

Lemma continuous_run_keeps_polling_witness :
  let env := envWith always always in
  let s1 := (prepare ledger_allowance ledger_approve Liquidator env "0xe39" "uniswap" fresh).1 in
  runOn Liquidator env "0xe39" true 10000 "uniswap" 3 fresh =
  (extend s1 (flat_map (iteration QueryAndLiquidate 10000) [0; 1; 2]%nat),
   Normal Polling).
Proof.
  apply (continuous_run_keeps_polling ledger_allowance ledger_approve Liquidator
           (envWith always always) "0xe39" 10000 "uniswap" 3 fresh);
    [answers | reflexivity].
Defined.

Lemma ensureAllowance_leaves_headroom_witness :
  let s' := (ensureAllowance ledger_allowance ledger_approve "Disputer#index"
               "Approved EMP to transfer unlimited collateral tokens 💰"
               "0xc011" (str "0xb07") "0xe39" fresh).1 in
  hasHeadroom ledger_allowance (chain s') "0xc011" (str "0xb07") "0xe39".
Proof.
  apply (ensureAllowance_leaves_headroom ledger_allowance ledger_approve
           "Disputer#index" "Approved EMP to transfer unlimited collateral tokens 💰"
           "0xc011" (str "0xb07") "0xe39" fresh);
    [apply ledger_erc20 | answers].
Defined.

Lemma liquidator_allowances_leave_headroom_witness :
  let s' := (liquidator_allowances ledger_allowance ledger_approve
               "0xc011" "0xc011" (str "0xb07") "0xe39" fresh).1 in
  hasHeadroom ledger_allowance (chain s') "0xc011" (str "0xb07") "0xe39" ∧
  transactions (trace s') =
    [ApproveTx "0xc011" "0xe39" MAX_UINT_VAL (str "0xb07");
     ApproveTx "0xc011" "0xe39" MAX_UINT_VAL (str "0xb07")].
Proof.
  split; [|vm_compute; reflexivity].
  apply (liquidator_allowances_leave_headroom ledger_allowance ledger_approve
           "0xc011" "0xc011" (str "0xb07") "0xe39" fresh);
    [apply ledger_erc20 | answers].
Defined.

Lemma low_allowances_are_set_to_the_maximum_witness :
  let s' := (liquidator_allowances ledger_allowance ledger_approve
               "0xc011" "0x5e17" (str "0xb07") "0xe39" fresh).1 in
  ledger_allowance (chain s') "0xc011" (str "0xb07") "0xe39" = Normal MAX_UINT_VAL ∧
  ledger_allowance (chain s') "0x5e17" (str "0xb07") "0xe39" = Normal MAX_UINT_VAL.
Proof.
  apply (low_allowances_are_set_to_the_maximum ledger_allowance ledger_approve
           "0xc011" "0x5e17" (str "0xb07") "0xe39" fresh _ 0 0);
    [apply ledger_erc20 | reflexivity | reflexivity | reflexivity | reflexivity
    | answers].
Defined.

Lemma liquidator_reads_before_it_approves_witness :
  liquidator_allowances ledger_allowance ledger_approve "0xc011" "0x5e17"
    undefined "0xe39" fresh = (fresh, Throw (JsError "invalid address")).
Proof.
  apply (liquidator_reads_before_it_approves ledger_allowance ledger_approve).
  left. reflexivity.
Defined.

Lemma Poll_reports_configuration_errors_witness :
  let env := envWith always always in
  let report error :=
    (extend fresh [configurationErrorRecord Liquidator error; WaitForLogger],
     Called (Some error)) in
  PollOn Liquidator {[ "PRICE_FEED_CONFIG" := "{}" ]} env 3 fresh
    = report missingAddress ∧
  PollOn Liquidator {[ "EMP_ADDRESS" := "0xe39"; "PRICE_FEED_CONFIG" := "" ]} env 3 fresh
    = report (missingPriceFeedConfig Liquidator) ∧
  PollOn Liquidator {[ "EMP_ADDRESS" := "0xe39"; "PRICE_FEED_CONFIG" := "{" ]} env 3 fresh
    = report (JsError "Unexpected end of JSON input").
Proof.
  cbv zeta.
  destruct (Poll_reports_configuration_errors ledger_allowance ledger_approve
              parseConfig parseDelay Liquidator {[ "PRICE_FEED_CONFIG" := "{}" ]}
              (envWith always always) 3 fresh) as (H1 & _).
  destruct (Poll_reports_configuration_errors ledger_allowance ledger_approve
              parseConfig parseDelay Liquidator
              {[ "EMP_ADDRESS" := "0xe39"; "PRICE_FEED_CONFIG" := "" ]}
              (envWith always always) 3 fresh) as (_ & H2 & _).
  destruct (Poll_reports_configuration_errors ledger_allowance ledger_approve
              parseConfig parseDelay Liquidator
              {[ "EMP_ADDRESS" := "0xe39"; "PRICE_FEED_CONFIG" := "{" ]}
              (envWith always always) 3 fresh) as (_ & _ & H3).
  split_and!.
  - apply H1. reflexivity.
  - apply H2; reflexivity.
  - apply H3; reflexivity.
Defined.

(** A configuration that parses, with a delay, but for which no price feed
    exists: [run] logs the failure and returns, and [Poll] calls back
    without argument. *)
Lemma Poll_never_reports_a_run_error_witness :
  let env := envWith always always in
  let processEnv : gmap string string :=
    {[ "EMP_ADDRESS" := "0xe39"; "POLLING_DELAY" := "5000";
       "PRICE_FEED_CONFIG" := "{}" ]} in
  let ran := runOn Disputer env "0xe39" true 5000 "{}" 3 fresh in
  trace ran.1 =
    [LoggerInfo "Disputer#index" "Disputer started🔎";
     LoggerError "Disputer#index🚨" "Disputer error"
       (JsError "Price feed config is invalid");
     WaitForLogger] ∧
  (PollOn Disputer processEnv env 3 fresh).2 = Called None ∧
  ∃ p, ran.2 = Normal p ∧
       PollOn Disputer processEnv env 3 fresh =
         (ran.1, match p with Returned => Called None | Polling => NotCalled end).
Proof.
  cbv zeta. split; [vm_compute; reflexivity|]. split; [vm_compute; reflexivity|].
  apply (Poll_never_reports_a_run_error ledger_allowance ledger_approve
           parseConfig parseDelay Disputer
           {[ "EMP_ADDRESS" := "0xe39"; "POLLING_DELAY" := "5000";
              "PRICE_FEED_CONFIG" := "{}" ]}
           (envWith always always) 3 fresh "{}");
    reflexivity.
Defined.



End Bot.
